(** * raven: a shallow embedding of [main.go]

    The program reads a file of [{"<url>"}] lines ([iter]), deduplicates
    and parses them in the dispatch loop of [main], fetches each URL in a
    goroutine bounded by a pool of [concurrency] HTTP clients
    ([resultProcessor.fetch]), folds the results into a [flockMetrics]
    record ([flockMetrics.add]) and prints a summary ([flockMetrics.String]).

    Go strings are byte strings; they are modelled as [list ascii]
    (8-bit characters) where bytes are inspected and as [string] where the
    program uses them as map keys.  A Go [int] is a 64-bit two's complement
    integer; its arithmetic is written with [wrap64]. *)

From Stdlib Require Import ZArith QArith List Ascii String Permutation Lia.
From Stdlib Require Floats.SpecFloat.
From stdpp Require Import base gmap strings.
Import ListNotations.

Open Scope Z_scope.

(* ------------------------------------------------------------------ *)
(** ** Go integers *)

Definition int_min : Z := - 2 ^ 63.
Definition int_max : Z := 2 ^ 63 - 1.

(** Two's complement wrap-around of a 64-bit [int]. *)
Definition wrap64 (z : Z) : Z := (z + 2 ^ 63) mod 2 ^ 64 - 2 ^ 63.

(* ------------------------------------------------------------------ *)
(** ** Bytes *)

Definition nl : ascii := "010"%char.
Definition dquote : ascii := "034"%char.

(** [bufio.Reader.ReadString('\n')]: the bytes up to and including the
    first newline, the unread rest, and whether the read failed with
    [io.EOF] (no newline before the end of the input; the bytes read so
    far are returned together with the error). *)
Fixpoint read_string (s : list ascii) : list ascii * list ascii * bool :=
  match s with
  | [] => ([], [], true)
  | c :: s' =>
      if ascii_dec c nl then ([c], s', false)
      else let '(l, r, e) := read_string s' in (c :: l, r, e)
  end.

(** Whitespace of [unicode.IsSpace], as the UTF-8 byte sequences that
    decode to it: the ASCII spaces [\t \n \v \f \r ' '] and U+0085,
    U+00A0, U+1680, U+2000..U+200A, U+2028, U+2029, U+202F, U+205F,
    U+3000.  A rune decoded at either end of a string is a space exactly
    when the string starts (ends) with one of these sequences. *)
Definition b (n : nat) : ascii := ascii_of_nat n.

Definition space_encodings : list (list ascii) :=
  [[b 9]; [b 10]; [b 11]; [b 12]; [b 13]; [b 32];
   [b 194; b 133]; [b 194; b 160]; [b 225; b 154; b 128]]
  ++ map (fun k => [b 226; b 128; b (128 + k)]) (seq 0 11)
  ++ [[b 226; b 128; b 168]; [b 226; b 128; b 169]; [b 226; b 128; b 175];
      [b 226; b 129; b 159]; [b 227; b 128; b 128]].

Fixpoint is_prefix (p s : list ascii) : bool :=
  match p, s with
  | [], _ => true
  | c :: p', d :: s' => if ascii_dec c d then is_prefix p' s' else false
  | _ :: _, [] => false
  end.

(** Drop one leading encoding from [encs], if any. *)
Fixpoint strip_one (encs : list (list ascii)) (s : list ascii)
  : option (list ascii) :=
  match encs with
  | [] => None
  | e :: encs' => if is_prefix e s then Some (skipn (length e) s)
                  else strip_one encs' s
  end.

Fixpoint trim_left_encs (encs : list (list ascii)) (fuel : nat)
    (s : list ascii) : list ascii :=
  match fuel with
  | O => s
  | S fuel' => match strip_one encs s with
               | Some r => trim_left_encs encs fuel' r
               | None => s
               end
  end.

(** [strings.TrimSpace] = [TrimRightFunc(TrimLeftFunc(s, IsSpace), IsSpace)]. *)
Definition TrimLeftSpace (s : list ascii) : list ascii :=
  trim_left_encs space_encodings (length s) s.
Definition TrimRightSpace (s : list ascii) : list ascii :=
  rev (trim_left_encs (map (@rev ascii) space_encodings) (length s) (rev s)).
Definition TrimSpace (s : list ascii) : list ascii :=
  TrimRightSpace (TrimLeftSpace s).

Definition HasPrefix (s : list ascii) (c : ascii) : bool :=
  match s with d :: _ => if ascii_dec c d then true else false | [] => false end.
Definition HasSuffix (s : list ascii) (c : ascii) : bool :=
  HasPrefix (rev s) c.

(** [strings.Trim(s, cutset)] for an ASCII cutset:
    [trimLeftASCII(trimRightASCII(s, as), as)]. *)
Definition in_cutset (cutset : list ascii) (c : ascii) : bool :=
  existsb (fun d => if ascii_dec c d then true else false) cutset.

Fixpoint trimLeftASCII (cutset : list ascii) (s : list ascii) : list ascii :=
  match s with
  | c :: s' => if in_cutset cutset c then trimLeftASCII cutset s' else s
  | [] => []
  end.
Definition trimRightASCII (cutset : list ascii) (s : list ascii) : list ascii :=
  rev (trimLeftASCII cutset (rev s)).
Definition Trim (s cutset : list ascii) : list ascii :=
  trimLeftASCII cutset (trimRightASCII cutset s).

(* ------------------------------------------------------------------ *)
(** ** The producer: [iter] *)

(** The envelope check of [iter]:
    [trimmed := strings.TrimSpace(s)], [HasPrefix(trimmed, "{")] and
    [HasSuffix(trimmed, "}")]. *)
Definition envelope_ok (s : list ascii) : bool :=
  let trimmed := TrimSpace s in
  HasPrefix trimmed "{"%char && HasSuffix trimmed "}"%char.

(** The cutset of the [strings.Trim] call in [iter]: the bytes [{], double
    quote, space, newline and [}]. *)
Definition iter_cutset : list ascii := ["{"%char; dquote; " "%char; nl; "}"%char].

Definition cleanse (s : list ascii) : list ascii := Trim s iter_cutset.

(** The goroutine of [iter]: [start] counts accepted lines.  The loop
    guard is [max < 0 || start < max]; a failed read ends the loop; a line
    failing the envelope check is skipped without touching [start].
    [start] never wraps: it only grows while [start < max] or while the
    guard is decided by [max < 0].  [fuel] bounds the number of reads;
    every successful read consumes at least one byte. *)
Fixpoint iter_loop (fuel : nat) (max start : Z) (src : list ascii)
  : list (list ascii) :=
  match fuel with
  | O => []
  | S fuel' =>
      if (max <? 0) || (start <? max) then
        let '(s, rest, eof) := read_string src in
        if eof then []
        else if negb (envelope_ok s) then iter_loop fuel' max start rest
        else cleanse s :: iter_loop fuel' max (start + 1) rest
      else []
  end.

(** The items sent on the [out] channel, in order. *)
Definition iter (source : list ascii) (max : Z) : list string :=
  map string_of_list_ascii (iter_loop (S (length source)) max 0 source).

(** The lines of a byte stream that end in a newline (newline included):
    the lines on which [ReadString] succeeds. *)
Fixpoint complete_lines (s : list ascii) : list (list ascii) :=
  match s with
  | [] => []
  | c :: s' =>
      if ascii_dec c nl then [c] :: complete_lines s'
      else match complete_lines s' with
           | [] => []
           | l :: ls => (c :: l) :: ls
           end
  end.

(** At most [max] elements when [max] is non-negative, all otherwise. *)
Definition bound {A} (max : Z) (l : list A) : list A :=
  if max <? 0 then l else firstn (Z.to_nat max) l.

Definition lstr (s : string) : list ascii := list_ascii_of_string s.

(** The line [{"u"}] followed by a newline. *)
Definition envelope_line (u : string) : list ascii :=
  ["{"%char; dquote] ++ lstr u ++ [dquote; "}"%char; nl].

(** The characters the spec says are stripped from both ends of a line. *)
Definition spec_strip_set : list ascii := ["{"%char; dquote; " "%char; "}"%char].

(* ------------------------------------------------------------------ *)
(** ** [strconv.Atoi] on a 64-bit platform *)

(** The error of [strconv.Atoi] (a [*strconv.NumError] for the input). *)
Inductive num_error := NumError (input : list ascii).

Definition digit_value (c : ascii) : option Z :=
  let d := Z.of_nat (nat_of_ascii c) - 48 in
  if (0 <=? d) && (d <=? 9) then Some d else None.

Fixpoint digits_value (acc : Z) (s : list ascii) : option Z :=
  match s with
  | [] => Some acc
  | c :: s' => match digit_value c with
               | Some d => digits_value (acc * 10 + d) s'
               | None => None
               end
  end.

(** [strconv.Atoi(s)]: an optional sign [+] or [-], then one or more
    decimal digits, with a value in the range of [int]; any other input is
    an error (a syntax error, or a range error for an out-of-range value). *)
Definition Atoi (s : list ascii) : Z + num_error :=
  let '(neg, body) :=
    match s with
    | c :: r => if ascii_dec c "-"%char then (true, r)
                else if ascii_dec c "+"%char then (false, r) else (false, s)
    | [] => (false, s)
    end in
  match body with
  | [] => inr (NumError s)
  | _ :: _ =>
      match digits_value 0 body with
      | None => inr (NumError s)
      | Some n =>
          let v := if neg then - n else n in
          if (int_min <=? v) && (v <=? int_max) then inl v else inr (NumError s)
      end
  end.

(* ------------------------------------------------------------------ *)
(** ** Results and errors *)

(** The [error] values the program creates or receives. *)
Inductive error :=
| ErrTransport (msg : string)            (* from [client.Get] *)
| ErrStatus (code : Z)                   (* "invalid status code: %d" *)
| ErrNoContentLength (code : Z) (resource : string)
| ErrAtoi (e : num_error).               (* from [strconv.Atoi] *)

(** [ravenResult]; [exception] is [None] for a nil error. *)
Record ravenResult := mkRavenResult {
  url : string;
  completed : bool;
  status : Z;
  exception : option error;
  size : Z;
  ambiguous : bool
}.

(** What [client.Get] yields: an error, or a response with its status
    code and [response.Header.Get("Content-Length")] (empty when the
    header is absent). *)
Inductive get_outcome :=
| GetError (msg : string)
| GetResponse (code : Z) (content_length : list ascii).

(** [resultProcessor.fetch] without the token pool (see [fetch_trace]):
    the one result the goroutine sends on [p.results]. *)
Definition fetch (resource : string) (o : get_outcome) : ravenResult :=
  match o with
  | GetError e =>
      mkRavenResult resource true 0 (Some (ErrTransport e)) 0 false
  | GetResponse code value =>
      if code >? 399 then
        mkRavenResult resource true 0 (Some (ErrStatus code)) 0 false
      else if (length value <=? 0)%nat then
        mkRavenResult resource true 0 (Some (ErrNoContentLength code resource)) 0 true
      else match Atoi value with
           | inr e => mkRavenResult resource true 0 (Some (ErrAtoi e)) 0 true
           | inl length => mkRavenResult resource true code None length false
           end
  end.

(* ------------------------------------------------------------------ *)
(** ** [flockMetrics] *)

(** A [float64] value: a finite value, as the rational number it denotes
    (the sign of a zero is not kept), an infinity, or NaN. *)
Inductive float64 :=
| F64 (q : Q)
| F64_Inf (negative : bool)
| F64_NaN.

(** The value of an IEEE 754 binary64 datum of [SpecFloat]. *)
Definition float64_value (x : SpecFloat.spec_float) : float64 :=
  match x with
  | SpecFloat.S754_zero _ => F64 0
  | SpecFloat.S754_infinity s => F64_Inf s
  | SpecFloat.S754_nan => F64_NaN
  | SpecFloat.S754_finite s m e =>
      let v := if s then Z.neg m else Z.pos m in
      F64 (if 0 <=? e then inject_Z (v * 2 ^ e) else inject_Z v / inject_Z (2 ^ (- e)))
  end.

(** [float64(z)] for an [int]: binary64 (53-bit significand, maximal
    exponent 1024), rounded to nearest with ties to even. *)
Definition float64_of_int (z : Z) : SpecFloat.spec_float :=
  SpecFloat.binary_normalize 53 1024 z 0 false.

(** [float64(a) / float64(b)]: both conversions and the binary64
    division rounded to nearest with ties to even; [x/0] is an infinity
    for [x <> 0] and [0/0] is NaN. *)
Definition float_div (a b : Z) : float64 :=
  float64_value (SpecFloat.SFdiv 53 1024 (float64_of_int a) (float64_of_int b)).

(** [flockMetrics]; [sizes] keeps the [float64(raven.size)] samples as
    integers, and [ambiguous_errors] is the Go field [ambiguous]. *)
Record flockMetrics := mkFlockMetrics {
  failed : Z;
  average : float64;
  sum : Z;
  max : Z;
  min : Z;
  count : Z;
  sizes : list Z;
  ambiguous_errors : list (option error)
}.

(** The [rollup] value built in [main]. *)
Definition init_metrics : flockMetrics :=
  mkFlockMetrics 0 (F64 0) 0 0 0 0 [] [].

(** [flockMetrics.add]. *)
Definition add (m : flockMetrics) (raven : ravenResult) : flockMetrics :=
  let count' := wrap64 (count m + 1) in
  let ambiguous' := if ambiguous raven
                    then ambiguous_errors m ++ [exception raven]
                    else ambiguous_errors m in
  match exception raven with
  | Some _ =>
      mkFlockMetrics (wrap64 (failed m + 1)) (average m) (sum m) (max m) (min m)
        count' (sizes m) ambiguous'
  | None =>
      let max' := if max m <? size raven then size raven else max m in
      let min' := if min m >? size raven then size raven else min m in
      mkFlockMetrics (failed m) (average m) (wrap64 (sum m + size raven)) max' min'
        count' (sizes m ++ [size raven]) ambiguous'
  end.

(** The aggregator goroutine: [rollup.add] on each result, in arrival order. *)
Definition rollup (arrived : list ravenResult) : flockMetrics :=
  fold_left add arrived init_metrics.

(** [rollup.average = float64(rollup.sum) / float64(rollup.count)]. *)
Definition finalize (m : flockMetrics) : flockMetrics :=
  mkFlockMetrics (failed m) (float_div (sum m) (count m)) (sum m) (max m) (min m)
    (count m) (sizes m) (ambiguous_errors m).

(* ------------------------------------------------------------------ *)
(** ** [flockMetrics.String] *)

(** The errors of [github.com/montanaflynn/stats] the calls can return. *)
Inductive stats_error := EmptyInputErr | BoundsErr.

(** The summary [flockMetrics.String] returns: either the
    ["invalid flock metrics, error: ..."] message or the joined fields
    [count, max, min, avg, quartiles, 95, 99, failed, ambiguous] followed by
    the listing of the ambiguous errors. *)
Inductive summary :=
| SummaryInvalid (e : stats_error)
| Summary (count max min : Z) (avg : float64) (quartiles : Q * Q * Q)
          (p95 p99 : Q) (failed : Z) (ambiguous_count : Z)
          (listing : list (option error)).

Section Reporter.
(** [stats.Quartile] and [Float64Data.Percentile] of
    [github.com/montanaflynn/stats].  The module version is not pinned
    and the versions differ on small samples (some fail on a single
    sample), so both are parameters; the one property every version has,
    failing with [EmptyInputErr] on an empty sample, is a hypothesis of
    the theorems that need it. *)
Variable stats_Quartile : list Z -> (Q * Q * Q) + stats_error.
Variable stats_Percentile : list Z -> Q -> Q + stats_error.

(** [flockMetrics.String]. *)
Definition String (m : flockMetrics) : summary :=
  match stats_Quartile (sizes m) with
  | inr e => SummaryInvalid e
  | inl quarters =>
      match stats_Percentile (sizes m) 99 with
      | inr e => SummaryInvalid e
      | inl ninenine =>
          match stats_Percentile (sizes m) 95 with
          | inr e => SummaryInvalid e
          | inl ninefive =>
              Summary (count m) (max m) (min m) (average m) quarters
                ninefive ninenine (failed m)
                (Z.of_nat (length (ambiguous_errors m))) (ambiguous_errors m)
          end
      end
  end.
End Reporter.

(* ------------------------------------------------------------------ *)
(** ** The dispatch loop of [main] *)

Section Dispatch.
(** [url.Parse] and the [String] method of [url.URL] in the Go library. *)
Variable URL : Type.
Variable url_Parse : string -> option URL.
Variable URL_String : URL -> string.

(** One iteration of [for line := range iter(...)]: [duplicates] is the
    [map[string]bool]; a fetch is dispatched (and the line recorded)
    only for a line not yet present that parses.  The [leader] counter
    only numbers log lines and is left out. *)
Definition dispatch_step (st : gmap string bool * list (string * URL))
    (line : string) : gmap string bool * list (string * URL) :=
  let '(duplicates, fetched) := st in
  match duplicates !! line with
  | Some _ => (duplicates, fetched)
  | None =>
      match url_Parse line with
      | None => (duplicates, fetched)
      | Some u => (<[line := true]> duplicates, fetched ++ [(line, u)])
      end
  end.

Definition dispatch_loop (lines : list string) : gmap string bool * list (string * URL) :=
  fold_left dispatch_step lines (∅, []).

(** The [go processor.fetch(url, wg)] calls of a run, in order. *)
Definition dispatched (source : list ascii) (maxLines : Z) : list (string * URL) :=
  snd (dispatch_loop (iter source maxLines)).

(** The result of each dispatched goroutine; [net i u] is what the
    [i]-th [client.Get] yields. *)
Definition fetch_results (net : nat -> URL -> get_outcome)
    (ds : list (string * URL)) : list ravenResult :=
  imap (fun i lu => fetch (URL_String (snd lu)) (net i (snd lu))) ds.

(** A completed run of [main]: the aggregator folds the results in some
    arrival order [arr] (any permutation of the results: the goroutines
    are not synchronised with each other); after [wg.Wait], [close] and
    [<-semo] the average is set.  The final line printed is
    [String] of the returned metrics. *)
Inductive run (source : list ascii) (maxLines : Z) (net : nat -> URL -> get_outcome)
  : list ravenResult -> flockMetrics -> Prop :=
| run_intro (arr : list ravenResult) :
    Permutation arr (fetch_results net (dispatched source maxLines)) ->
    run source maxLines net arr (finalize (rollup arr)).

Definition parses (line : string) : bool :=
  match url_Parse line with Some _ => true | None => false end.
End Dispatch.

(* ------------------------------------------------------------------ *)
(** ** Run quantities, as the claims count them *)

Definition succeeded (r : ravenResult) : bool :=
  match exception r with None => true | Some _ => false end.

(** The sizes of the successful results of a list, in order. *)
Definition successful_sizes (l : list ravenResult) : list Z :=
  map size (List.filter succeeded l).

Definition sum_Z (l : list Z) : Z := fold_right Z.add 0 l.

(* ------------------------------------------------------------------ *)
(** ** Concrete inputs for examples, witnesses and counterexamples *)

Definition demo_parse (s : string) : option string :=
  if String.eqb s "bad" then None else Some s.

Definition demo_src : list ascii :=
  envelope_line "http://a" ++ lstr "junk" ++ [nl] ++ envelope_line "bad"
  ++ envelope_line "http://a" ++ envelope_line "http://b".

Definition demo_net (i : nat) (u : string) : get_outcome :=
  match i with
  | O => GetResponse 200 (lstr "1234")
  | _ => GetResponse 404 []
  end.

Definition demo_arr : list ravenResult :=
  fetch_results string (fun u => u) demo_net (dispatched string demo_parse demo_src (-1)).

Definition demo_metrics : flockMetrics := finalize (rollup demo_arr).

(** The reported average as a number, for comparison with a claimed value. *)
Definition avg_is (v : float64) (q : Q) : Prop :=
  match v with F64 q' => Qeq q' q | _ => False end.

Definition big_net (i : nat) (u : string) : get_outcome :=
  GetResponse 200 (lstr "9223372036854775807").

(** A statistics library failing exactly on an empty sample, and one
    whose [Quartile] also fails on a single sample. *)
Definition demo_quartiles (l : list Z) : (Q * Q * Q) + stats_error :=
  match l with [] => inr EmptyInputErr | _ => inl (0, 0, 0)%Q end.
Definition demo_percentile (l : list Z) (p : Q) : Q + stats_error :=
  match l with [] => inr EmptyInputErr | _ => inl 0%Q end.
Definition strict_quartiles (l : list Z) : (Q * Q * Q) + stats_error :=
  match l with [] | [_] => inr EmptyInputErr | _ => inl (0, 0, 0)%Q end.


(* ------------------------------------------------------------------ *)
(** ** The client pool ([fetchers]) and the effects of [fetch] *)

(** The observable steps of a [fetch] goroutine. *)
Inductive effect :=
| E_Acquire                   (* client := <-p.queue *)
| E_Get                       (* client.Get(...) *)
| E_Send (r : ravenResult)    (* p.results <- r *)
| E_CloseBody                 (* deferred response.Body.Close() *)
| E_Release                   (* deferred p.queue <- client *)
| E_Done.                     (* deferred group.Done() *)

(** The effects of [resultProcessor.fetch] for the outcome [o] of
    [client.Get], one branch per [return]; at each return the deferred
    calls run in reverse order of their [defer]. *)
Definition fetch_trace (resource : string) (o : get_outcome) : list effect :=
  let deferred1 := [E_Release; E_Done] in
  E_Acquire :: E_Get ::
  match o with
  | GetError e =>
      E_Send (mkRavenResult resource true 0 (Some (ErrTransport e)) 0 false) :: deferred1
  | GetResponse code value =>
      let deferred2 := E_CloseBody :: deferred1 in
      if code >? 399 then
        E_Send (mkRavenResult resource true 0 (Some (ErrStatus code)) 0 false) :: deferred2
      else if (length value <=? 0)%nat then
        E_Send (mkRavenResult resource true 0
                  (Some (ErrNoContentLength code resource)) 0 true) :: deferred2
      else match Atoi value with
           | inr e =>
               E_Send (mkRavenResult resource true 0 (Some (ErrAtoi e)) 0 true) :: deferred2
           | inl length =>
               E_Send (mkRavenResult resource true code None length false) :: deferred2
           end
  end.

Definition is_token_op (e : effect) : bool :=
  match e with E_Acquire | E_Release => true | _ => false end.

Definition token_ops (t : list effect) : list effect := List.filter is_token_op t.

(** The buffered channel [fetchers] (capacity [N], filled with [N]
    clients) as the number of clients in it, and the remaining effects of
    each [fetch] goroutine. *)
Record pool_state := mkPoolState {
  pool : nat;
  threads : list (list effect)
}.

(** One goroutine takes one step: receiving from [fetchers] blocks while
    it is empty, sending to it blocks while it is full. *)
Inductive pool_step (N : nat) : pool_state -> pool_state -> Prop :=
| ps_acquire p ts i t :
    (0 < p)%nat -> ts !! i = Some (E_Acquire :: t) ->
    pool_step N (mkPoolState p ts) (mkPoolState (p - 1) (<[i := t]> ts))
| ps_release p ts i t :
    (p < N)%nat -> ts !! i = Some (E_Release :: t) ->
    pool_step N (mkPoolState p ts) (mkPoolState (S p) (<[i := t]> ts))
| ps_other p ts i e t :
    is_token_op e = false -> ts !! i = Some (e :: t) ->
    pool_step N (mkPoolState p ts) (mkPoolState p (<[i := t]> ts)).

(** [N] clients in the pool and one goroutine per dispatched fetch. *)
Definition pool_init (N : nat) (jobs : list (string * get_outcome)) : pool_state :=
  mkPoolState N (map (fun j => fetch_trace j.1 j.2) jobs).

Definition pool_reachable (N : nat) : pool_state -> pool_state -> Prop :=
  rtc (pool_step N).

(** A goroutine holds a client between its receive and its send back. *)
Definition holds_token (t : list effect) : bool :=
  match token_ops t with [E_Release] => true | _ => false end.

Definition held_count (ts : list (list effect)) : nat :=
  length (List.filter holds_token ts).

(** The invariant of the client pool: each goroutine has both token
    operations ahead, only the release, or none; clients in the pool plus
    clients held make [N]. *)
Definition token_wf (t : list effect) : Prop :=
  token_ops t = [E_Acquire; E_Release] \/ token_ops t = [E_Release] \/ token_ops t = [].

Definition hb (t : list effect) : nat := if holds_token t then 1 else 0.

Definition pool_inv (N : nat) (s : pool_state) : Prop :=
  Forall token_wf (threads s) /\ (pool s + held_count (threads s) = N)%nat.

(** Two fetch goroutines: a transport error and a success. *)
Definition demo_jobs : list (string * get_outcome) :=
  [("http://a"%string, GetError "connection refused");
   ("http://b"%string, GetResponse 200 (lstr "5"))].

(* ------------------------------------------------------------------ *)
(** ** The start of [main]: arguments and the client pool *)

Section MainSetup.
(** [os.Stat(filename)]: [None] for an error, [Some d] with [d] its
    [IsDir()] otherwise; and whether [os.Open(filename)] succeeds. *)
Variable stat : string -> option bool.
Variable open_ok : string -> bool.

(** The checks of [main] before the file is read: a single positional
    argument, a positive [concurrency], a file that [os.Stat] finds and
    that is not a directory, and that [os.Open] opens.  [None] is one of
    the [os.Exit(1)] branches; otherwise the file name and the number of
    clients the loop [for i := 0; i < options.concurrency; i++] puts in
    [fetchers]. *)
Definition main_setup (leftover : list string) (concurrency : Z) : option (string * nat) :=
  match leftover with
  | [filename] =>
      if concurrency <=? 0 then None
      else match stat filename with
           | Some false => if open_ok filename then Some (filename, Z.to_nat concurrency)
                           else None
           | _ => None
           end
  | _ => None
  end.
End MainSetup.

(** The effects the [fetch] goroutines have left to perform. *)
Definition remaining (s : pool_state) : nat :=
  fold_right (fun t n => length t + n)%nat 0%nat (threads s).

(* ------------------------------------------------------------------ *)
(** ** Auxiliary functions for stating properties *)

(** The decimal numeral of an integer, as [strconv.Itoa] writes it: an
    optional minus sign and the digits without leading zeros.  The
    program does not print numbers this way; [Itoa] describes the
    inputs [Atoi] reads. *)
Definition digit_char (d : Z) : ascii := ascii_of_nat (Z.to_nat (48 + d)).

Fixpoint decimal_digits (fuel : nat) (n : Z) : list Z :=
  match fuel with
  | O => [n]
  | S f => if n <? 10 then [n] else decimal_digits f (n / 10) ++ [n mod 10]
  end.

Definition Itoa (z : Z) : list ascii :=
  let digits n := map digit_char (decimal_digits (S (Z.to_nat (Z.log2 n))) n) in
  if z <? 0 then "-"%char :: digits (- z) else digits z.

(** The elements of [l] not in [seen], each at its first occurrence. *)
Fixpoint first_occurrences (seen : list string) (l : list string) : list string :=
  match l with
  | [] => []
  | x :: l' => if in_dec string_dec x seen then first_occurrences seen l'
               else x :: first_occurrences (x :: seen) l'
  end.

(** The results carrying an error. *)
Definition failed_results (l : list ravenResult) : list ravenResult :=
  List.filter (fun r => negb (succeeded r)) l.

(** The integer fields of [flockMetrics]. *)
Definition scalars (m : flockMetrics) : Z * Z * Z * Z * Z :=
  (failed m, sum m, max m, min m, count m).

(** More concrete inputs: a transport layer whose responses have an
    unparsable and a missing Content-Length, a file with no valid URL,
    and a file system where every file exists and opens. *)
Definition ambiguous_net (i : nat) (u : string) : get_outcome :=
  match i with
  | O => GetResponse 200 (lstr "12a")
  | _ => GetResponse 200 []
  end.

Definition junk_src : list ascii := lstr "junk" ++ [nl] ++ envelope_line "bad".

Definition demo_stat (filename : string) : option bool := Some false.
Definition demo_open (filename : string) : bool := true.

(* ------------------------------------------------------------------ *)
(** ** Examples *)

Example iter_example :
  iter (envelope_line "http://a" ++ lstr "junk" ++ [nl] ++ envelope_line " x ") (-1)
  = ["http://a"%string; "x"%string].
Proof. vm_compute. reflexivity. Qed.

Example iter_example_max :
  iter (envelope_line "a" ++ lstr "junk" ++ [nl] ++ envelope_line "b") 1
  = ["a"%string].
Proof. vm_compute. reflexivity. Qed.

(** A leading no-break space (U+00A0) passes the envelope check (it is
    whitespace for [TrimSpace]) but is not in the [Trim] cutset. *)
Example envelope_unicode_space :
  envelope_ok ([b 194; b 160] ++ envelope_line "a") = true /\
  cleanse ([b 194; b 160] ++ envelope_line "a") = [b 194; b 160; "{"%char; dquote; "a"%char].
Proof. vm_compute. split; reflexivity. Qed.

(** A line ending in a carriage return keeps it and the closing brace. *)
Example envelope_crlf :
  envelope_ok (lstr "{x}" ++ [b 13; nl]) = true /\
  cleanse (lstr "{x}" ++ [b 13; nl]) = lstr "x}" ++ [b 13].
Proof. vm_compute. split; reflexivity. Qed.

(* ------------------------------------------------------------------ *)
(** ** Producer lemmas *)

Lemma read_string_lines (s : list ascii) :
  match read_string s with
  | (l, r, false) => complete_lines s = l :: complete_lines r /\
                     (length r < length s)%nat
  | (_, _, true) => complete_lines s = []
  end.
Proof.
  induction s as [|c s IH]; simpl; [reflexivity|].
  destruct (ascii_dec c nl) as [->|Hc].
  - split; [reflexivity | lia].
  - destruct (read_string s) as [[l r] e]; destruct e.
    + rewrite IH. reflexivity.
    + destruct IH as [-> Hlen]. split; [reflexivity | lia].
Qed.

Lemma iter_loop_spec (fuel : nat) (src : list ascii) (max start : Z) :
  (length src < fuel)%nat ->
  iter_loop fuel max start src =
  map cleanse
    (if max <? 0 then List.filter envelope_ok (complete_lines src)
     else firstn (Z.to_nat (max - start)) (List.filter envelope_ok (complete_lines src))).
Proof.
  revert src start. induction fuel as [|fuel IH]; intros src start Hf; [lia|].
  simpl. pose proof (read_string_lines src) as Hr.
  destruct (read_string src) as [[s rest] eof].
  destruct (max <? 0) eqn:Hm; simpl.
  - destruct eof; [rewrite Hr; reflexivity|].
    destruct Hr as [Hl Hlen]. rewrite Hl. simpl.
    destruct (envelope_ok s); simpl; rewrite IH by lia; try rewrite Hm; reflexivity.
  - destruct (start <? max) eqn:Hs.
    + destruct eof; [rewrite Hr; destruct (Z.to_nat _); reflexivity|].
      destruct Hr as [Hl Hlen]. rewrite Hl. simpl.
      destruct (envelope_ok s); simpl; rewrite IH by lia; try rewrite Hm.
      * replace (Z.to_nat (max - start)) with (S (Z.to_nat (max - (start + 1))))
          by (apply Z.ltb_lt in Hs; lia).
        reflexivity.
      * reflexivity.
    + replace (Z.to_nat (max - start)) with 0%nat by (apply Z.ltb_ge in Hs; lia).
      reflexivity.
Qed.

Lemma iter_spec (src : list ascii) (max : Z) :
  iter src max =
  map string_of_list_ascii
    (map cleanse (bound max (List.filter envelope_ok (complete_lines src)))).
Proof.
  unfold iter, bound. rewrite iter_loop_spec by lia.
  rewrite Z.sub_0_r. reflexivity.
Qed.

Lemma complete_lines_no_nl (s : list ascii) :
  ~ In nl s -> complete_lines s = [].
Proof.
  induction s as [|c s IH]; intros Hs; simpl; [reflexivity|].
  destruct (ascii_dec c nl) as [->|Hc]; [exfalso; apply Hs; left; reflexivity|].
  rewrite IH; [reflexivity|]. intros H; apply Hs; right; exact H.
Qed.

Lemma complete_lines_terminated_nonempty (p : list ascii) :
  complete_lines (p ++ [nl]) <> [].
Proof.
  induction p as [|c p IH]; simpl; [discriminate|].
  destruct (ascii_dec c nl); [discriminate|].
  destruct (complete_lines (p ++ [nl])); [contradiction|discriminate].
Qed.

Lemma complete_lines_app (p t : list ascii) :
  complete_lines (p ++ nl :: t) = complete_lines (p ++ [nl]) ++ complete_lines t.
Proof.
  induction p as [|c p IH]; simpl.
  - destruct (ascii_dec nl nl); [reflexivity|contradiction].
  - destruct (ascii_dec c nl); simpl; [rewrite IH; reflexivity|].
    rewrite IH. pose proof (complete_lines_terminated_nonempty p) as Hne.
    destruct (complete_lines (p ++ [nl])); [contradiction|reflexivity].
Qed.

(** Decomposition of [trimLeftASCII]: a removed prefix of cutset bytes,
    and a rest that is empty or starts outside the cutset. *)
Lemma trimLeftASCII_split (cut x : list ascii) :
  exists pre, x = pre ++ trimLeftASCII cut x /\
    Forall (fun c => in_cutset cut c = true) pre /\
    (trimLeftASCII cut x = [] \/
     exists c r, trimLeftASCII cut x = c :: r /\ in_cutset cut c = false).
Proof.
  induction x as [|c x IH]; simpl.
  - exists []. split; [reflexivity|]. split; [constructor|left; reflexivity].
  - destruct (in_cutset cut c) eqn:Hc.
    + destruct IH as (pre & Hx & Hp & Hr). exists (c :: pre).
      split; [simpl; rewrite <- Hx; reflexivity|].
      split; [constructor; assumption | exact Hr].
    + exists []. split; [reflexivity|]. split; [constructor|].
      right. exists c, x. split; [reflexivity|exact Hc].
Qed.

Lemma last_app_nonempty {A} (l r : list A) (d : A) :
  r <> [] -> List.last (l ++ r) d = List.last r d.
Proof.
  intros Hr. induction l as [|a l IH]; simpl; [reflexivity|].
  destruct (l ++ r) eqn:E.
  - apply app_eq_nil in E. destruct E as [_ E]. contradiction.
  - exact IH.
Qed.

Lemma iter_cutset_spec (c : ascii) :
  c <> nl -> in_cutset iter_cutset c = true -> In c spec_strip_set.
Proof.
  intros Hn Hc. unfold in_cutset, iter_cutset in Hc. simpl in Hc.
  unfold spec_strip_set.
  repeat match goal with
         | H : context [ascii_dec ?x ?y] |- _ => destruct (ascii_dec x y)
         end; subst; simpl in *; try discriminate; tauto.
Qed.

Lemma spec_strip_in_cutset (c : ascii) :
  In c spec_strip_set -> in_cutset iter_cutset c = true.
Proof.
  unfold spec_strip_set; simpl; intros H.
  repeat destruct H as [<-|H]; try contradiction; reflexivity.
Qed.

(* ------------------------------------------------------------------ *)
(** ** Producer theorems *)

(** Claim C5: [iter] emits, in order, the cleansed form of the lines that
    [ReadString] delivers and that pass the envelope check; lines failing
    the check are dropped without counting, and the emitted items are
    bounded by [max] exactly when [max] is non-negative: their number is
    [min(max, #accepted)] for [max >= 0] and [#accepted] for [max < 0]. *)
Theorem iter_emits_bounded_accepted (src : list ascii) (max : Z) :
  let accepted := List.filter envelope_ok (complete_lines src) in
  iter src max = map string_of_list_ascii (map cleanse (bound max accepted)) /\
  length (iter src max) =
    (if max <? 0 then length accepted
     else Nat.min (Z.to_nat max) (length accepted)).
Proof.
  intros accepted. rewrite iter_spec. split; [reflexivity|].
  rewrite !length_map. unfold bound.
  destruct (max <? 0); [reflexivity|]. apply length_firstn.
Qed.

(** Claim C6: for a line read by [ReadString] (its content followed by
    the newline), the emitted text is the content with a maximal run of
    the characters [{], double quote, space and [}] removed from each end and
    nothing else removed: what is left is empty or starts and ends with
    another character. *)
Theorem cleanse_strips_envelope_chars (content : list ascii) (Hnl : ~ In nl content) :
  let out := cleanse (content ++ [nl]) in
  exists pre post, content = pre ++ out ++ post /\
    Forall (fun c => In c spec_strip_set) pre /\
    Forall (fun c => In c spec_strip_set) post /\
    (out = [] \/ (~ In (List.hd nl out) spec_strip_set /\
                  ~ In (List.last out nl) spec_strip_set)).
Proof.
  intros out. unfold out, cleanse, Trim, trimRightASCII.
  replace (trimLeftASCII iter_cutset (rev (content ++ [nl])))
    with (trimLeftASCII iter_cutset (rev content))
    by (rewrite rev_app_distr; reflexivity).
  destruct (trimLeftASCII_split iter_cutset (rev content)) as (preR & HR & HpR & HyR).
  set (y := trimLeftASCII iter_cutset (rev content)) in *.
  destruct (trimLeftASCII_split iter_cutset (rev y)) as (preL & HL & HpL & HoL).
  set (o := trimLeftASCII iter_cutset (rev y)) in *.
  assert (Hc : content = preL ++ o ++ rev preR).
  { rewrite <- (rev_involutive content), HR, rev_app_distr, HL, app_assoc.
    reflexivity. }
  assert (Hin : forall c, In c content -> c <> nl)
    by (intros c Hc' ->; contradiction).
  exists preL, (rev preR). split; [exact Hc|]. split; [|split].
  - apply List.Forall_forall. intros c Hc'. apply iter_cutset_spec.
    + apply Hin. rewrite Hc. apply in_or_app. left. exact Hc'.
    + rewrite List.Forall_forall in HpL. apply HpL. exact Hc'.
  - apply List.Forall_forall. intros c Hc'. apply iter_cutset_spec.
    + apply Hin. rewrite Hc. apply in_or_app. right. apply in_or_app. right. exact Hc'.
    + rewrite List.Forall_forall in HpR. apply HpR. apply in_rev. exact Hc'.
  - destruct HoL as [Ho|(c & r & Ho & Hcut)]; [left; exact Ho|right].
    split.
    + rewrite Ho. simpl. intros Hs. apply spec_strip_in_cutset in Hs.
      rewrite Hs in Hcut. discriminate.
    + destruct HyR as [Hy|(c' & r' & Hy & Hcut')].
      * exfalso. rewrite Hy in HL. simpl in HL. rewrite Ho in HL.
        destruct preL; discriminate.
      * assert (Hlast : List.last o nl = c').
        { rewrite <- (last_app_nonempty preL o nl) by (rewrite Ho; discriminate).
          rewrite <- HL, Hy. simpl. apply last_last. }
        rewrite Hlast. intros Hs. apply spec_strip_in_cutset in Hs.
        rewrite Hs in Hcut'. discriminate.
Qed.

Lemma cleanse_strips_envelope_chars_witness :
  ~ In nl (lstr "{x}") /\
  cleanse (lstr "{x}" ++ [nl]) = lstr "x" /\
  (let out := cleanse (lstr "{x}" ++ [nl]) in
   exists pre post, lstr "{x}" = pre ++ out ++ post /\
    Forall (fun c => In c spec_strip_set) pre /\
    Forall (fun c => In c spec_strip_set) post /\
    (out = [] \/ (~ In (List.hd nl out) spec_strip_set /\
                  ~ In (List.last out nl) spec_strip_set))).
Proof.
  assert (H : ~ In nl (lstr "{x}")).
  { vm_compute. intros H. repeat (destruct H as [H|H]; [discriminate H|]). exact H. }
  split; [exact H|]. split; [vm_compute; reflexivity|].
  apply (cleanse_strips_envelope_chars (lstr "{x}")). exact H.
Defined.

(** Claim C10: a final line that is not terminated by a newline is never
    emitted, whether or not it is a valid envelope: appending it to an
    input that is empty or ends in a newline leaves the output of [iter]
    unchanged. *)
Theorem iter_ignores_unterminated_last_line (pre tail_bytes : list ascii) (max : Z)
    (Htail : ~ In nl tail_bytes)
    (Hpre : pre = [] \/ exists p, pre = p ++ [nl]) :
  iter (pre ++ tail_bytes) max = iter pre max.
Proof.
  rewrite !iter_spec.
  assert (E : complete_lines (pre ++ tail_bytes) = complete_lines pre).
  { destruct Hpre as [->|[p ->]]; simpl.
    - rewrite (complete_lines_no_nl tail_bytes Htail). reflexivity.
    - rewrite <- app_assoc. simpl. rewrite complete_lines_app.
      rewrite (complete_lines_no_nl tail_bytes Htail). apply app_nil_r. }
  rewrite E. reflexivity.
Qed.

Lemma iter_ignores_unterminated_last_line_witness :
  iter (envelope_line "http://a" ++ removelast (envelope_line "http://b")) (-1)
  = ["http://a"%string].
Proof.
  rewrite (iter_ignores_unterminated_last_line
             (envelope_line "http://a") (removelast (envelope_line "http://b")) (-1)).
  - vm_compute. reflexivity.
  - vm_compute. intros H. repeat (destruct H as [H|H]; [discriminate H|]). exact H.
  - right. exists (removelast (envelope_line "http://a")). vm_compute. reflexivity.
Defined.

Example Atoi_examples :
  Atoi (lstr "1234") = inl 1234 /\ Atoi (lstr "-5") = inl (-5) /\
  Atoi (lstr "+7") = inl 7 /\ Atoi (lstr "12a") = inr (NumError (lstr "12a")) /\
  Atoi (lstr "-") = inr (NumError (lstr "-")) /\
  Atoi (lstr "9223372036854775807") = inl int_max /\
  Atoi (lstr "9223372036854775808") = inr (NumError (lstr "9223372036854775808")).
Proof. vm_compute. repeat split. Qed.

Example dispatch_example :
  map fst (dispatched string (fun s => if String.eqb s "bad" then None else Some s)
             (envelope_line "a" ++ envelope_line "bad" ++ envelope_line "a"
              ++ envelope_line "b" ++ envelope_line "bad") (-1))
  = ["a"%string; "b"%string].
Proof. vm_compute. reflexivity. Qed.

(* ------------------------------------------------------------------ *)
(** ** Facts about Go integers and the fold of [add] *)

Lemma wrap64_add_l (x y : Z) : wrap64 (wrap64 x + y) = wrap64 (x + y).
Proof.
  unfold wrap64.
  replace ((x + 2 ^ 63) mod 2 ^ 64 - 2 ^ 63 + y + 2 ^ 63)
    with ((x + 2 ^ 63) mod 2 ^ 64 + y) by ring.
  rewrite Zplus_mod_idemp_l. f_equal. f_equal. ring.
Qed.

Lemma wrap64_small (x : Z) : int_min <= x <= int_max -> wrap64 x = x.
Proof.
  unfold wrap64, int_min, int_max. intros H.
  rewrite Z.mod_small by lia. ring.
Qed.

Lemma fold_add_count (l : list ravenResult) (m : flockMetrics) :
  count (fold_left add l m) =
  match l with [] => count m | _ => wrap64 (count m + Z.of_nat (length l)) end.
Proof.
  revert m. induction l as [|r l IH]; intros m; simpl; [reflexivity|].
  rewrite IH. destruct l as [|r' l]; simpl.
  - unfold add. destruct (exception r); simpl; f_equal; lia.
  - replace (count (add m r)) with (wrap64 (count m + 1))
      by (unfold add; destruct (exception r); reflexivity).
    rewrite wrap64_add_l. f_equal. lia.
Qed.

Lemma fold_add_sum (l : list ravenResult) (m : flockMetrics) :
  wrap64 (sum (fold_left add l m)) = wrap64 (sum m + sum_Z (successful_sizes l)).
Proof.
  revert m. induction l as [|r l IH]; intros m; simpl.
  - f_equal. lia.
  - rewrite IH. unfold successful_sizes, succeeded, add. simpl.
    destruct (exception r); simpl.
    + reflexivity.
    + rewrite wrap64_add_l. f_equal. lia.
Qed.

Lemma fold_add_sum_wrapped (l : list ravenResult) (m : flockMetrics) :
  wrap64 (sum m) = sum m -> wrap64 (sum (fold_left add l m)) = sum (fold_left add l m).
Proof.
  revert m. induction l as [|r l IH]; intros m Hm; simpl; [exact Hm|].
  apply IH. unfold add. destruct (exception r); simpl; [exact Hm|].
  pose proof (wrap64_add_l (sum m + size r) 0) as H. rewrite !Z.add_0_r in H.
  exact H.
Qed.

Lemma fold_add_sizes (l : list ravenResult) (m : flockMetrics) :
  sizes (fold_left add l m) = sizes m ++ successful_sizes l.
Proof.
  revert m. induction l as [|r l IH]; intros m; simpl.
  - rewrite app_nil_r. reflexivity.
  - rewrite IH. unfold successful_sizes, succeeded, add. simpl.
    destruct (exception r); simpl; [reflexivity|].
    rewrite <- app_assoc. reflexivity.
Qed.

Lemma fold_add_min_max (l : list ravenResult) (m : flockMetrics) :
  min (fold_left add l m) = fold_left Z.min (successful_sizes l) (min m) /\
  max (fold_left add l m) = fold_left Z.max (successful_sizes l) (max m).
Proof.
  revert m. induction l as [|r l IH]; intros m; simpl; [split; reflexivity|].
  rewrite !(proj1 (IH _)), !(proj2 (IH _)).
  unfold successful_sizes, succeeded, add. simpl.
  destruct (exception r); simpl; [split; reflexivity|].
  split; f_equal.
  - destruct (min m >? size r) eqn:E; rewrite Z.gtb_ltb in E;
      [apply Z.ltb_lt in E | apply Z.ltb_ge in E]; lia.
  - destruct (max m <? size r) eqn:E; [apply Z.ltb_lt in E | apply Z.ltb_ge in E]; lia.
Qed.

(* ------------------------------------------------------------------ *)
(** ** The deduplication invariant *)

Section DispatchFacts.
Variable URL : Type.
Variable url_Parse : string -> option URL.
Lemma dispatch_fold_inv (lines : list string) (dups : gmap string bool)
    (ds : list (string * URL)) :
  (forall l, is_Some (dups !! l) <-> In l (map fst ds)) ->
  List.NoDup (map fst ds) ->
  let st := fold_left (dispatch_step URL url_Parse) lines (dups, ds) in
  (forall l, is_Some (st.1 !! l) <-> In l (map fst st.2)) /\
  List.NoDup (map fst st.2) /\
  (forall l, In l (map fst st.2) <->
             In l (map fst ds) \/ (In l lines /\ parses URL url_Parse l = true)).
Proof.
  revert dups ds. induction lines as [|a lines IH]; intros dups ds Hdom Hnd; simpl.
  - split; [exact Hdom|]. split; [exact Hnd|]. intros l. tauto.
  - destruct (dups !! a) eqn:Ha.
    + destruct (IH dups ds Hdom Hnd) as (H1 & H2 & H3).
      split; [exact H1|]. split; [exact H2|]. intros l. rewrite H3.
      split; [tauto|]. intros [H|[[<-|H] Hp]]; [tauto| |tauto].
      left. apply Hdom. rewrite Ha. eexists; reflexivity.
    + destruct (url_Parse a) as [u|] eqn:Hp.
      * assert (Hnew : ~ In a (map fst ds)).
        { intros H. apply Hdom in H. rewrite Ha in H. inversion H; discriminate. }
        destruct (IH (<[a := true]> dups) (ds ++ [(a, u)])) as (H1 & H2 & H3).
        -- intros l. rewrite map_app. simpl. rewrite in_app_iff. simpl.
           rewrite lookup_insert. case_decide as Hal.
           ++ subst. split; [tauto|]. intros _. eexists; reflexivity.
           ++ rewrite Hdom. split; [tauto|]. intros [H|[H|H]]; [exact H|congruence|contradiction].
        -- rewrite map_app. simpl.
           apply (Permutation_NoDup (Permutation_cons_append (map fst ds) a)).
           constructor; assumption.
        -- split; [exact H1|]. split; [exact H2|]. intros l. rewrite H3.
           rewrite map_app, in_app_iff. simpl. unfold parses. split.
           ++ intros [[H|[<-|[]]]|H]; [tauto| |tauto]. right. rewrite Hp. tauto.
           ++ intros [H|[[<-|H] Hl]]; [tauto|tauto|tauto].
      * destruct (IH dups ds Hdom Hnd) as (H1 & H2 & H3).
        split; [exact H1|]. split; [exact H2|]. intros l. rewrite H3.
        split; [tauto|]. intros [H|[[<-|H] Hl]]; [tauto| |tauto].
        unfold parses in Hl. rewrite Hp in Hl. discriminate.
Qed.

Lemma dispatched_inv (src : list ascii) (maxLines : Z) :
  let ds := dispatched URL url_Parse src maxLines in
  List.NoDup (map fst ds) /\
  (forall l, In l (map fst ds) <->
             In l (iter src maxLines) /\ parses URL url_Parse l = true).
Proof.
  unfold dispatched, dispatch_loop.
  destruct (dispatch_fold_inv (iter src maxLines) ∅ [])
    as (_ & H2 & H3).
  - intros l. rewrite lookup_empty. simpl. split; [intros H; inversion H; discriminate|tauto].
  - constructor.
  - split; [exact H2|]. intros l. rewrite H3. simpl. tauto.
Qed.

Variable URL_String : URL -> string.

Lemma length_fetch_results (net : nat -> URL -> get_outcome) (ds : list (string * URL)) :
  length (fetch_results URL URL_String net ds) = length ds.
Proof. unfold fetch_results. apply length_imap. Qed.
End DispatchFacts.

Lemma fold_min_nonpos (xs : list Z) (a : Z) :
  a <= 0 -> Forall (fun z => 0 < z) xs -> fold_left Z.min xs a = a.
Proof.
  revert a. induction xs as [|x xs IH]; intros a Ha Hxs; simpl; [reflexivity|].
  inversion Hxs; subst. replace (Z.min a x) with a by lia. apply IH; assumption.
Qed.

Lemma rollup_sizes (arr : list ravenResult) :
  sizes (finalize (rollup arr)) = successful_sizes arr.
Proof. unfold finalize, rollup. simpl. rewrite fold_add_sizes. reflexivity. Qed.

Lemma rollup_count (arr : list ravenResult) :
  Z.of_nat (length arr) <= int_max ->
  count (finalize (rollup arr)) = Z.of_nat (length arr).
Proof.
  intros H. unfold finalize, rollup. simpl. rewrite fold_add_count.
  destruct arr; [reflexivity|]. simpl count.
  apply wrap64_small. unfold int_min, int_max in *. lia.
Qed.

Lemma rollup_sum (arr : list ravenResult) :
  int_min <= sum_Z (successful_sizes arr) <= int_max ->
  sum (finalize (rollup arr)) = sum_Z (successful_sizes arr).
Proof.
  intros H. unfold finalize, rollup. simpl.
  rewrite <- fold_add_sum_wrapped by reflexivity.
  rewrite fold_add_sum. simpl. apply wrap64_small. exact H.
Qed.

Lemma rollup_count_wrapped (arr : list ravenResult) :
  count (finalize (rollup arr)) = wrap64 (Z.of_nat (length arr)).
Proof.
  unfold finalize, rollup. simpl. rewrite fold_add_count.
  destruct arr; reflexivity.
Qed.

Lemma rollup_sum_wrapped (arr : list ravenResult) :
  sum (finalize (rollup arr)) = wrap64 (sum_Z (successful_sizes arr)).
Proof.
  unfold finalize, rollup. simpl.
  rewrite <- fold_add_sum_wrapped by reflexivity.
  rewrite fold_add_sum. reflexivity.
Qed.

(* ------------------------------------------------------------------ *)
(** ** Theorems about a run *)

Section RunTheorems.
Variable URL : Type.
Variable url_Parse : string -> option URL.
Variable URL_String : URL -> string.

(** Claim C3: a line emitted by the producer (once or several times)
    that parses as a URL is dispatched exactly once; every later
    occurrence finds it in [duplicates]. *)
Theorem dedup_dispatches_line_once (src : list ascii) (maxLines : Z)
    (line : string) (u : URL)
    (Hparse : url_Parse line = Some u)
    (Hin : In line (iter src maxLines)) :
  List.count_occ string_dec (map fst (dispatched URL url_Parse src maxLines)) line = 1%nat.
Proof.
  destruct (dispatched_inv URL url_Parse src maxLines) as [Hnd Hmem].
  apply (proj1 (NoDup_count_occ' string_dec _) Hnd).
  apply Hmem. split; [exact Hin|]. unfold parses. rewrite Hparse. reflexivity.
Qed.

(** Claim C4: [count] equals the number of folded results (one per
    dispatched goroutine), which is the number of emitted lines that
    parse and are not duplicates, i.e. the number of distinct emitted
    lines that parse.  ([count] is a Go [int]; runs with more than
    [2^63 - 1] results are excluded.) *)
Theorem count_is_number_of_fresh_parsed (src : list ascii) (maxLines : Z)
    (net : nat -> URL -> get_outcome) (arr : list ravenResult) (m : flockMetrics)
    (Hrun : run URL url_Parse URL_String src maxLines net arr m)
    (Hbound : Z.of_nat (length arr) <= int_max) :
  count m = Z.of_nat (length arr) /\
  length arr = length (dispatched URL url_Parse src maxLines) /\
  length arr = length (List.nodup string_dec
                         (List.filter (parses URL url_Parse) (iter src maxLines))).
Proof.
  inversion Hrun as [arr' Hperm]; subst.
  split; [apply rollup_count; exact Hbound|].
  assert (Hlen : length arr = length (dispatched URL url_Parse src maxLines)).
  { rewrite (Permutation_length Hperm). apply length_fetch_results. }
  split; [exact Hlen|]. rewrite Hlen.
  destruct (dispatched_inv URL url_Parse src maxLines) as [Hnd Hmem].
  set (ds := dispatched URL url_Parse src maxLines) in *.
  set (fresh := List.nodup string_dec (List.filter (parses URL url_Parse) (iter src maxLines))).
  assert (Hfresh : forall l, In l fresh <-> In l (map fst ds)).
  { intros l. unfold fresh. rewrite nodup_In, filter_In, Hmem. tauto. }
  rewrite <- (length_map fst ds).
  apply Nat.le_antisymm; apply NoDup_incl_length.
  - exact Hnd.
  - intros l Hl. apply Hfresh. exact Hl.
  - apply NoDup_nodup.
  - intros l Hl. apply Hfresh. exact Hl.
Qed.

(** Claim C1, as amended: after the stream is drained, the average is
    the binary64 division [float64(rollup.sum) / float64(rollup.count)],
    where [rollup.count] is the number of all folded results (failed and
    ambiguous ones included) and [rollup.sum] the sum of the successful
    sizes, both as 64-bit [int]s, i.e. wrapped around modulo [2^64].
    When both fit in an [int] the wrap-around does nothing and the
    average is [float64(sum) / float64(count)] of the exact values. *)
Theorem average_is_success_sum_over_count (src : list ascii) (maxLines : Z)
    (net : nat -> URL -> get_outcome) (arr : list ravenResult) (m : flockMetrics)
    (Hrun : run URL url_Parse URL_String src maxLines net arr m) :
  average m = float_div (wrap64 (sum_Z (successful_sizes arr)))
                        (wrap64 (Z.of_nat (length arr))) /\
  (Z.of_nat (length arr) <= int_max ->
   int_min <= sum_Z (successful_sizes arr) <= int_max ->
   average m = float_div (sum_Z (successful_sizes arr)) (Z.of_nat (length arr))).
Proof.
  inversion Hrun as [arr' Hperm]; subst.
  assert (Havg : average (finalize (rollup arr)) =
                 float_div (wrap64 (sum_Z (successful_sizes arr)))
                           (wrap64 (Z.of_nat (length arr)))).
  { rewrite <- rollup_count_wrapped, <- rollup_sum_wrapped. reflexivity. }
  split; [exact Havg|].
  intros Hbound Hsum. rewrite Havg.
  rewrite (wrap64_small (sum_Z _) Hsum).
  rewrite (wrap64_small (Z.of_nat _)) by (unfold int_min, int_max in *; lia).
  reflexivity.
Qed.

(** Claim C9: [min] and [max] start at 0 and only move past a successful
    size, so they are [min(0, sizes...)] and [max(0, sizes...)]; when all
    successful sizes are positive the reported [min] is 0. *)
Theorem min_max_start_at_zero (src : list ascii) (maxLines : Z)
    (net : nat -> URL -> get_outcome) (arr : list ravenResult) (m : flockMetrics)
    (Hrun : run URL url_Parse URL_String src maxLines net arr m) :
  sizes m = successful_sizes arr /\
  min m = fold_left Z.min (sizes m) 0 /\
  max m = fold_left Z.max (sizes m) 0 /\
  (Forall (fun z => 0 < z) (sizes m) -> min m = 0).
Proof.
  inversion Hrun as [arr' Hperm]; subst.
  rewrite rollup_sizes.
  destruct (fold_add_min_max arr init_metrics) as [Hmin Hmax].
  unfold finalize, rollup. simpl. rewrite Hmin, Hmax. simpl.
  split; [reflexivity|]. split; [reflexivity|]. split; [reflexivity|].
  intros H. apply fold_min_nonpos; [lia | exact H].
Qed.

Variable stats_Quartile : list Z -> (Q * Q * Q) + stats_error.
Variable stats_Percentile : list Z -> Q -> Q + stats_error.

End RunTheorems.

(* ------------------------------------------------------------------ *)
(** ** [fetch]: classification of the Content-Length header *)

(** Claim C2, as amended: for a response with status below 400 and a
    non-empty Content-Length value, the result is an ambiguous error
    carrying the [strconv.Atoi] error exactly when [Atoi] rejects the
    value (anything but an optionally signed decimal integer in the range
    of [int]); otherwise it is a success with the parsed value as size,
    negative values included. *)
Theorem fetch_content_length_classification (resource : string) (code : Z)
    (value : list ascii) (Hcode : code <= 399) (Hval : value <> []) :
  let r := fetch resource (GetResponse code value) in
  match Atoi value with
  | inl n => exception r = None /\ ambiguous r = false /\ size r = n /\ status r = code
  | inr e => exception r = Some (ErrAtoi e) /\ ambiguous r = true /\ size r = 0
  end.
Proof.
  intros r. unfold r, fetch.
  replace (code >? 399) with false by (symmetry; rewrite Z.gtb_ltb; apply Z.ltb_ge; lia).
  replace ((length value <=? 0)%nat) with false
    by (destruct value; [contradiction|reflexivity]).
  destruct (Atoi value); simpl; repeat split.
Qed.

Lemma fetch_content_length_classification_witness :
  (200 <= 399 /\ lstr "1234" <> []) /\
  exception (fetch "http://a" (GetResponse 200 (lstr "1234"))) = None /\
  ambiguous (fetch "http://a" (GetResponse 200 (lstr "1234"))) = false /\
  size (fetch "http://a" (GetResponse 200 (lstr "1234"))) = 1234 /\
  status (fetch "http://a" (GetResponse 200 (lstr "1234"))) = 200.
Proof.
  assert (H1 : 200 <= 399) by lia.
  assert (H2 : lstr "1234" <> []) by discriminate.
  split; [split; assumption|].
  exact (fetch_content_length_classification "http://a" 200 (lstr "1234") H1 H2).
Defined.

(** Claim C2 as stated fails: the value [-5] (kept by the HTTP client on
    a 204 response) gives a success result with size -5. *)
Lemma fetch_negative_length_counterexample :
  fetch "http://a" (GetResponse 204 (lstr "-5"))
    = mkRavenResult "http://a" true 204 None (-5) false /\
  ~ (forall resource code value, code <= 399 -> value <> [] ->
       exception (fetch resource (GetResponse code value)) = None ->
       0 <= size (fetch resource (GetResponse code value))).
Proof.
  split; [vm_compute; reflexivity|].
  intros H. specialize (H "http://a"%string 204 (lstr "-5")).
  assert (H1 : 204 <= 399) by lia.
  assert (H2 : lstr "-5" <> []) by discriminate.
  specialize (H H1 H2 eq_refl). vm_compute in H. apply H. reflexivity.
Qed.

(* ------------------------------------------------------------------ *)
(** ** Concrete runs *)

Lemma run_in_order {URL : Type} (url_Parse : string -> option URL)
    (URL_String : URL -> string) (src : list ascii) (maxLines : Z)
    (net : nat -> URL -> get_outcome) :
  let arr := fetch_results URL URL_String net (dispatched URL url_Parse src maxLines) in
  run URL url_Parse URL_String src maxLines net arr (finalize (rollup arr)).
Proof. intros arr. constructor. apply Permutation_refl. Qed.

Lemma demo_run : run string demo_parse (fun u => u) demo_src (-1) demo_net demo_arr demo_metrics.
Proof. exact (run_in_order demo_parse (fun u => u) demo_src (-1) demo_net). Qed.

Example demo_metrics_values :
  count demo_metrics = 2 /\ failed demo_metrics = 1 /\ sum demo_metrics = 1234 /\
  min demo_metrics = 0 /\ max demo_metrics = 1234 /\ sizes demo_metrics = [1234].
Proof. vm_compute. repeat split. Qed.

Lemma dedup_dispatches_line_once_witness :
  (demo_parse "http://a" = Some "http://a"%string /\
   List.count_occ string_dec (iter demo_src (-1)) "http://a" = 2%nat) /\
  List.count_occ string_dec (map fst (dispatched string demo_parse demo_src (-1))) "http://a" = 1%nat.
Proof.
  assert (Hp : demo_parse "http://a" = Some "http://a"%string) by reflexivity.
  assert (Hk : List.count_occ string_dec (iter demo_src (-1)) "http://a" = 2%nat)
    by (vm_compute; reflexivity).
  assert (Hin : In "http://a"%string (iter demo_src (-1)))
    by (vm_compute; left; reflexivity).
  split; [split; assumption|].
  exact (dedup_dispatches_line_once string demo_parse demo_src (-1) "http://a" "http://a" Hp Hin).
Defined.

Lemma count_is_number_of_fresh_parsed_witness :
  Z.of_nat (length demo_arr) <= int_max /\
  count demo_metrics = Z.of_nat (length demo_arr) /\
  length demo_arr = length (dispatched string demo_parse demo_src (-1)) /\
  length demo_arr = length (List.nodup string_dec
                              (List.filter (parses string demo_parse) (iter demo_src (-1)))).
Proof.
  assert (Hb : Z.of_nat (length demo_arr) <= int_max) by (vm_compute; discriminate).
  split; [exact Hb|].
  exact (count_is_number_of_fresh_parsed string demo_parse (fun u => u) demo_src (-1)
           demo_net demo_arr demo_metrics demo_run Hb).
Defined.

Lemma average_is_success_sum_over_count_witness :
  run string demo_parse (fun u => u) demo_src (-1) demo_net demo_arr demo_metrics /\
  (Z.of_nat (length demo_arr) <= int_max /\
   int_min <= sum_Z (successful_sizes demo_arr) <= int_max) /\
  average demo_metrics = float_div (wrap64 (sum_Z (successful_sizes demo_arr)))
                                   (wrap64 (Z.of_nat (length demo_arr))) /\
  average demo_metrics = float_div (sum_Z (successful_sizes demo_arr))
                                   (Z.of_nat (length demo_arr)).
Proof.
  assert (H2 : Z.of_nat (length demo_arr) <= int_max) by (vm_compute; discriminate).
  assert (H3 : int_min <= sum_Z (successful_sizes demo_arr) <= int_max)
    by (vm_compute; split; discriminate).
  destruct (average_is_success_sum_over_count string demo_parse (fun u => u) demo_src (-1)
              demo_net demo_arr demo_metrics demo_run) as [Ha Hb].
  split; [exact demo_run|]. split; [split; assumption|].
  split; [exact Ha|exact (Hb H2 H3)].
Defined.

(** The average is rounded: [float64(1) / float64(3)] is not [1/3]. *)
Example float_div_rounds :
  float_div 1 3 = F64 (6004799503160661 # 18014398509481984) /\ ~ avg_is (float_div 1 3) (1 # 3).
Proof. vm_compute. split; [reflexivity|intros H; discriminate H]. Qed.

(** Claim C1 as stated fails when the successful sizes overflow [int]:
    two results of size [2^63 - 1] leave [rollup.sum = -2], so the
    average is -1 instead of [2^63 - 1]. *)
Lemma average_overflow_counterexample :
  ~ (forall src maxLines net arr m,
       run string demo_parse (fun u => u) src maxLines net arr m ->
       (1 <= length arr)%nat ->
       avg_is (average m) (inject_Z (sum_Z (successful_sizes arr)) /
                           inject_Z (Z.of_nat (length arr)))).
Proof.
  intros H.
  pose proof (run_in_order demo_parse (fun u => u)
                (envelope_line "http://a" ++ envelope_line "http://b") (-1) big_net) as Hrun.
  simpl in Hrun. apply H in Hrun; [|vm_compute; lia].
  vm_compute in Hrun. discriminate Hrun.
Qed.

Lemma min_max_start_at_zero_witness :
  run string demo_parse (fun u => u) demo_src (-1) demo_net demo_arr demo_metrics /\
  sizes demo_metrics = successful_sizes demo_arr /\
  min demo_metrics = fold_left Z.min (sizes demo_metrics) 0 /\
  max demo_metrics = fold_left Z.max (sizes demo_metrics) 0 /\
  (Forall (fun z => 0 < z) (sizes demo_metrics) -> min demo_metrics = 0).
Proof.
  split; [exact demo_run|].
  exact (min_max_start_at_zero string demo_parse (fun u => u) demo_src (-1)
           demo_net demo_arr demo_metrics demo_run).
Defined.



(** A version whose [Quartile] rejects a single sample (as v0.12 of the
    library does) gives the [invalid flock metrics] message on the demo run,
    which has one successful result. *)
Example summary_one_sample_strict :
  sizes demo_metrics = [1234] /\
  String strict_quartiles demo_percentile demo_metrics = SummaryInvalid EmptyInputErr.
Proof. vm_compute. split; reflexivity. Qed.

(* ------------------------------------------------------------------ *)
(** ** Client pool lemmas *)

Lemma fetch_trace_token_ops (resource : string) (o : get_outcome) :
  token_ops (fetch_trace resource o) = [E_Acquire; E_Release].
Proof.
  unfold fetch_trace. destruct o as [e|code value]; [reflexivity|].
  destruct (code >? 399); [reflexivity|].
  destruct ((length value <=? 0)%nat); [reflexivity|].
  destruct (Atoi value); reflexivity.
Qed.

(** The result sent by a [fetch] goroutine is the one computed by [fetch]. *)
Lemma fetch_trace_sends_fetch (resource : string) (o : get_outcome) :
  exists pre post, fetch_trace resource o = pre ++ E_Send (fetch resource o) :: post.
Proof.
  unfold fetch_trace, fetch. destruct o as [e|code value].
  - exists [E_Acquire; E_Get]. eexists. reflexivity.
  - destruct (code >? 399); [exists [E_Acquire; E_Get]; eexists; reflexivity|].
    destruct ((length value <=? 0)%nat); [exists [E_Acquire; E_Get]; eexists; reflexivity|].
    destruct (Atoi value); exists [E_Acquire; E_Get]; eexists; reflexivity.
Qed.

Lemma held_count_insert (ts : list (list effect)) (i : nat) (x y : list effect) :
  ts !! i = Some x -> (held_count (<[i := y]> ts) + hb x = held_count ts + hb y)%nat.
Proof.
  revert i. induction ts as [|a ts IH]; intros i H; [discriminate|].
  destruct i as [|i]; simpl in H.
  - injection H as ->. unfold held_count, hb. simpl.
    destruct (holds_token x), (holds_token y); simpl; lia.
  - specialize (IH i H). unfold held_count, hb in *. simpl.
    destruct (holds_token a); simpl; lia.
Qed.

Lemma pool_step_inv (N : nat) (s s' : pool_state) :
  pool_inv N s -> pool_step N s s' -> pool_inv N s'.
Proof.
  intros [Hwf Hcnt] Hstep.
  destruct Hstep as [p ts i t Hp Hi|p ts i t Hp Hi|p ts i e t He Hi]; simpl in *;
    pose proof (Forall_lookup_1 _ _ _ _ Hwf Hi) as Hx;
    pose proof (held_count_insert ts i _ t Hi) as Hh;
    unfold token_wf, hb, holds_token in *; simpl in *.
  - destruct Hx as [Hx|[Hx|Hx]]; try discriminate Hx. injection Hx as Hx.
    unfold pool_inv; simpl; split.
    + apply Forall_insert; [exact Hwf|]. right; left. exact Hx.
    + rewrite Hx in Hh. simpl in Hh. lia.
  - destruct Hx as [Hx|[Hx|Hx]]; try discriminate Hx.
    injection Hx as Hx. unfold pool_inv; simpl; split.
    + apply Forall_insert; [exact Hwf|]. right; right. exact Hx.
    + rewrite Hx in Hh. simpl in Hh. lia.
  - rewrite He in Hx, Hh. unfold pool_inv; simpl; split.
    + apply Forall_insert; [exact Hwf|]. exact Hx.
    + destruct (token_ops t) as [|[] [|[] []]]; simpl in Hh; lia.
Qed.

Lemma pool_init_inv (N : nat) (jobs : list (string * get_outcome)) :
  pool_inv N (pool_init N jobs).
Proof.
  unfold pool_init, pool_inv. simpl. split.
  - apply List.Forall_forall. intros t Ht. apply in_map_iff in Ht.
    destruct Ht as (j & <- & _). left. apply fetch_trace_token_ops.
  - assert (H : held_count (map (fun j => fetch_trace j.1 j.2) jobs) = 0%nat).
    { unfold held_count. induction jobs as [|j jobs IH]; [reflexivity|].
      cbn -[holds_token fetch_trace].
      replace (holds_token (fetch_trace j.1 j.2)) with false
        by (unfold holds_token; rewrite fetch_trace_token_ops; reflexivity).
      exact IH. }
    rewrite H. lia.
Qed.

Lemma pool_reachable_inv (N : nat) (s s' : pool_state) :
  pool_reachable N s s' -> pool_inv N s -> pool_inv N s'.
Proof.
  induction 1 as [s|s1 s2 s3 Hs _ IH]; intros Hinv; [exact Hinv|].
  apply IH. eapply pool_step_inv; eassumption.
Qed.

(** Claim C8: in every state reachable from [N] clients in the pool and
    any set of [fetch] goroutines, at most [N] goroutines hold a client;
    once all goroutines have finished every client is back in the pool;
    and on every path through [fetch] (transport error, bad status,
    missing or unparsable length, success) the goroutine takes exactly one
    client and gives it back exactly once, after taking it. *)
Theorem token_pool_bounded (N : nat) (jobs : list (string * get_outcome))
    (s : pool_state) (Hreach : pool_reachable N (pool_init N jobs) s) :
  (held_count (threads s) <= N)%nat /\
  (Forall (fun t => t = []) (threads s) -> pool s = N) /\
  (forall resource o, token_ops (fetch_trace resource o) = [E_Acquire; E_Release]).
Proof.
  destruct (pool_reachable_inv N _ _ Hreach (pool_init_inv N jobs)) as [_ Hcnt].
  split; [lia|]. split; [|exact fetch_trace_token_ops].
  intros Hdone.
  assert (H0 : held_count (threads s) = 0%nat).
  { clear - Hdone. unfold held_count.
    induction Hdone as [|t ts Ht _ IH]; [reflexivity|].
    subst t. simpl. exact IH. }
  lia.
Qed.

Lemma token_pool_bounded_witness :
  let s := mkPoolState (1 - 1)
             (<[0%nat := tail (fetch_trace "http://a" (GetError "connection refused"))]>
                (threads (pool_init 1 demo_jobs))) in
  pool_reachable 1 (pool_init 1 demo_jobs) s /\
  (held_count (threads s) <= 1)%nat /\
  (Forall (fun t => t = []) (threads s) -> pool s = 1%nat) /\
  (forall resource o, token_ops (fetch_trace resource o) = [E_Acquire; E_Release]).
Proof.
  intros s.
  assert (Hr : pool_reachable 1 (pool_init 1 demo_jobs) s).
  { apply rtc_once. apply ps_acquire; [lia|reflexivity]. }
  split; [exact Hr|].
  exact (token_pool_bounded 1 demo_jobs s Hr).
Defined.

Example token_pool_witness_holds_one :
  held_count (threads (mkPoolState 0
    (<[0%nat := tail (fetch_trace "http://a" (GetError "connection refused"))]>
       (threads (pool_init 1 demo_jobs))))) = 1%nat.
Proof. vm_compute. reflexivity. Qed.

(* ------------------------------------------------------------------ *)
(** ** The producer: reads, limits and concatenation *)

(** [bufio.Reader.ReadString('\n')] as [iter] uses it loses no byte:
    the returned line followed by the unread rest is the input.  A
    successful read returns the bytes up to and including the first
    newline; a failed read ([io.EOF]) consumes all the input, which
    holds no newline. *)
Theorem read_string_round_trip (s l r : list ascii) (e : bool)
    (H : read_string s = (l, r, e)) :
  l ++ r = s /\
  (e = false -> exists p, l = p ++ [nl] /\ ~ In nl p) /\
  (e = true -> r = [] /\ ~ In nl l).
Proof.
  revert l r e H. induction s as [|c s IH]; intros l r e H; simpl in H.
  - injection H as <- <- <-. split; [reflexivity|]. split; [discriminate|].
    intros _. split; [reflexivity|]. intros [].
  - destruct (ascii_dec c nl) as [->|Hc].
    + injection H as <- <- <-. split; [reflexivity|]. split.
      * intros _. exists []. split; [reflexivity|]. intros [].
      * discriminate.
    + destruct (read_string s) as [[l' r'] e'] eqn:E.
      injection H as <- <- <-.
      destruct (IH l' r' e' eq_refl) as (H1 & H2 & H3).
      split; [simpl; rewrite H1; reflexivity|]. split.
      * intros He. destruct (H2 He) as (p & -> & Hp).
        exists (c :: p). split; [reflexivity|].
        intros [Hx|Hx]; [congruence|contradiction].
      * intros He. destruct (H3 He) as [Hr Hl]. split; [exact Hr|].
        intros [Hx|Hx]; [congruence|contradiction].
Qed.

Lemma firstn_prefix {A} (a b : nat) (l : list A) :
  (a <= b)%nat -> exists more, firstn b l = firstn a l ++ more.
Proof.
  intros Hab. exists (firstn (b - a) (skipn a l)).
  rewrite take_take_drop. f_equal. lia.
Qed.

(** The items [iter] emits with a limit [m1 >= 0] are a prefix of those
    it emits with any larger limit, or with a negative (absent) one. *)
Theorem iter_max_prefix (src : list ascii) (m1 m2 : Z)
    (H1 : 0 <= m1) (H2 : m1 <= m2 \/ m2 < 0) :
  exists more, iter src m2 = iter src m1 ++ more.
Proof.
  rewrite !iter_spec. unfold bound.
  set (acc := List.filter envelope_ok (complete_lines src)).
  replace (m1 <? 0) with false by (symmetry; apply Z.ltb_ge; lia).
  destruct (m2 <? 0) eqn:E2.
  - exists (map string_of_list_ascii (map cleanse (skipn (Z.to_nat m1) acc))).
    rewrite <- !map_app, firstn_skipn. reflexivity.
  - apply Z.ltb_ge in E2.
    destruct (firstn_prefix (Z.to_nat m1) (Z.to_nat m2) acc) as [more Hm]; [lia|].
    exists (map string_of_list_ascii (map cleanse more)).
    rewrite Hm, !map_app. reflexivity.
Qed.

Lemma complete_lines_append (a c : list ascii) :
  (a = [] \/ exists p, a = p ++ [nl]) ->
  complete_lines (a ++ c) = complete_lines a ++ complete_lines c.
Proof.
  intros [->|[p ->]]; [reflexivity|].
  rewrite <- app_assoc. simpl. rewrite complete_lines_app. reflexivity.
Qed.

(** Reading two inputs back to back, the first empty or ending in a
    newline, emits the items of the first, then those of the second with
    whatever is left of the [max-lines] budget (all of them when it is
    negative). *)
Theorem iter_app (a c : list ascii) (max : Z)
    (Ha : a = [] \/ exists p, a = p ++ [nl]) :
  iter (a ++ c) max =
  iter a max ++ iter c (if max <? 0 then max else max - Z.of_nat (length (iter a max))).
Proof.
  rewrite !iter_spec, complete_lines_append by exact Ha.
  rewrite List.filter_app. unfold bound.
  set (A := List.filter envelope_ok (complete_lines a)).
  set (C := List.filter envelope_ok (complete_lines c)).
  destruct (max <? 0) eqn:E.
  - rewrite E, !map_app. reflexivity.
  - apply Z.ltb_ge in E.
    rewrite !length_map, length_firstn.
    replace (max - Z.of_nat (Nat.min (Z.to_nat max) (length A)) <? 0) with false
      by (symmetry; apply Z.ltb_ge; lia).
    rewrite firstn_app, !map_app. replace (Z.to_nat (max - Z.of_nat (Nat.min (Z.to_nat max) (length A)))) with (Z.to_nat max - length A)%nat by lia. reflexivity.
Qed.

Lemma complete_lines_shape (s l : list ascii) :
  In l (complete_lines s) -> exists p, l = p ++ [nl] /\ ~ In nl p.
Proof.
  revert l. induction s as [|c s IH]; intros l Hl; simpl in Hl; [contradiction|].
  destruct (ascii_dec c nl) as [->|Hc].
  - destruct Hl as [<-|Hl]; [|apply IH; exact Hl].
    exists []. split; [reflexivity|]. intros [].
  - destruct (complete_lines s) as [|l0 ls] eqn:E; [contradiction|].
    destruct Hl as [<-|Hl].
    + destruct (IH l0 (or_introl eq_refl)) as (p & -> & Hp).
      exists (c :: p). split; [reflexivity|]. intros [H|H]; [congruence|contradiction].
    + apply IH. right. exact Hl.
Qed.

Lemma trimLeftASCII_In (cut x : list ascii) (c : ascii) :
  In c (trimLeftASCII cut x) -> In c x.
Proof.
  induction x as [|d x IH]; simpl; [tauto|].
  destruct (in_cutset cut d); [intros H; right; apply IH; exact H|tauto].
Qed.

Lemma cleanse_line_no_nl (p : list ascii) :
  ~ In nl p -> ~ In nl (cleanse (p ++ [nl])).
Proof.
  intros Hp H. unfold cleanse, Trim, trimRightASCII in H.
  rewrite rev_app_distr in H. simpl in H.
  apply trimLeftASCII_In in H. apply in_rev in H.
  apply trimLeftASCII_In in H. apply in_rev in H. contradiction.
Qed.

(** No item emitted by [iter] contains a newline byte. *)
Theorem iter_items_single_line (src : list ascii) (max : Z) (s : string)
    (Hs : In s (iter src max)) :
  ~ In nl (lstr s).
Proof.
  rewrite iter_spec, map_map in Hs. apply in_map_iff in Hs.
  destruct Hs as (l & <- & Hl).
  assert (Hl' : In l (complete_lines src)).
  { unfold bound in Hl. destruct (max <? 0).
    - apply filter_In in Hl. apply Hl.
    - pose proof (in_or_app _ (skipn (Z.to_nat max)
                    (List.filter envelope_ok (complete_lines src))) l (or_introl Hl)) as H.
      rewrite firstn_skipn in H. apply filter_In in H. apply H. }
  destruct (complete_lines_shape src l Hl') as (p & -> & Hp).
  unfold lstr. rewrite list_ascii_of_string_of_list_ascii.
  apply cleanse_line_no_nl. exact Hp.
Qed.

(* ------------------------------------------------------------------ *)
(** ** [strconv.Atoi] and [strconv.Itoa] *)

Lemma digit_value_char (d : Z) : 0 <= d <= 9 -> digit_value (digit_char d) = Some d.
Proof.
  intros Hd. unfold digit_value, digit_char.
  rewrite nat_ascii_embedding by lia.
  rewrite Z2Nat.id by lia.
  replace (48 + d - 48) with d by lia.
  replace ((0 <=? d) && (d <=? 9)) with true by (symmetry; apply andb_true_iff; split; apply Z.leb_le; lia).
  reflexivity.
Qed.

Lemma digits_value_map (l : list Z) (acc : Z) :
  Forall (fun d => 0 <= d <= 9) l ->
  digits_value acc (map digit_char l) = Some (fold_left (fun a d => a * 10 + d) l acc).
Proof.
  revert acc. induction l as [|d l IH]; intros acc Hl; simpl; [reflexivity|].
  inversion Hl; subst. rewrite digit_value_char by assumption. apply IH. assumption.
Qed.

Lemma decimal_digits_spec (fuel : nat) (n : Z) :
  0 <= n < 10 ^ Z.of_nat fuel ->
  Forall (fun d => 0 <= d <= 9) (decimal_digits fuel n) /\
  fold_left (fun a d => a * 10 + d) (decimal_digits fuel n) 0 = n /\
  decimal_digits fuel n <> [].
Proof.
  revert n. induction fuel as [|f IH]; intros n Hn; simpl.
  - simpl in Hn. split; [constructor; [lia|constructor]|]. split; [simpl; lia|discriminate].
  - destruct (n <? 10) eqn:E.
    + apply Z.ltb_lt in E. split; [constructor; [lia|constructor]|]. split; [simpl; lia|discriminate].
    + apply Z.ltb_ge in E.
      assert (Hq : 0 <= n / 10 < 10 ^ Z.of_nat f).
      { split; [apply Z.div_pos; lia|].
        apply Z.div_lt_upper_bound; [lia|].
        rewrite Nat2Z.inj_succ, Z.pow_succ_r in Hn by lia. lia. }
      destruct (IH _ Hq) as (H1 & H2 & H3).
      split; [apply Forall_app; split; [exact H1|constructor; [|constructor]]; pose proof (Z.mod_pos_bound n 10); lia|].
      split; [|intros H; apply app_eq_nil in H; destruct H as [_ H]; discriminate].
      rewrite fold_left_app, H2. simpl. pose proof (Z.div_mod n 10). lia.
Qed.

Lemma decimal_digits_log (n : Z) :
  0 <= n ->
  let ds := decimal_digits (S (Z.to_nat (Z.log2 n))) n in
  Forall (fun d => 0 <= d <= 9) ds /\ fold_left (fun a d => a * 10 + d) ds 0 = n /\ ds <> [].
Proof.
  intros Hn. apply decimal_digits_spec. split; [exact Hn|].
  rewrite Nat2Z.inj_succ, Z2Nat.id by (apply Z.log2_nonneg).
  destruct (Z.eq_dec n 0) as [->|Hn0]; [simpl; lia|].
  destruct (Z.log2_spec n) as [_ H]; [lia|].
  eapply Z.lt_le_trans; [exact H|].
  apply Z.pow_le_mono_l. lia.
Qed.

Lemma digit_char_not_sign (d : Z) :
  0 <= d <= 9 -> digit_char d <> "-"%char /\ digit_char d <> "+"%char.
Proof.
  intros Hd. unfold digit_char. split; intros H;
    apply (f_equal nat_of_ascii) in H; rewrite nat_ascii_embedding in H by lia.
  - change (nat_of_ascii "-") with 45%nat in H. lia.
  - change (nat_of_ascii "+") with 43%nat in H. lia.
Qed.

(** [strconv.Atoi] reads back the decimal numeral of every integer in
    the range of a 64-bit [int], and rejects with a [NumError] the
    numeral of every integer outside it. *)
Theorem Atoi_Itoa (z : Z) :
  Atoi (Itoa z) =
  if (int_min <=? z) && (z <=? int_max) then inl z else inr (NumError (Itoa z)).
Proof.
  unfold Itoa. destruct (z <? 0) eqn:Hz.
  - apply Z.ltb_lt in Hz.
    destruct (decimal_digits_log (- z)) as (Hd & Hv & Hne); [lia|].
    set (ds := decimal_digits (S (Z.to_nat (Z.log2 (- z)))) (- z)) in *.
    unfold Atoi. simpl.
    destruct ds as [|d ds']; [contradiction|].
    change (digit_char d :: map digit_char ds') with (map digit_char (d :: ds')).
    rewrite digits_value_map by exact Hd. rewrite Hv.
    replace (- - z) with z by lia. reflexivity.
  - apply Z.ltb_ge in Hz.
    destruct (decimal_digits_log z) as (Hd & Hv & Hne); [lia|].
    set (ds := decimal_digits (S (Z.to_nat (Z.log2 z))) z) in *.
    unfold Atoi.
    destruct ds as [|d ds'] eqn:Eds; [contradiction|]. simpl map.
    pose proof (Forall_inv Hd) as Hd0. simpl in Hd0.
    destruct (digit_char_not_sign d Hd0) as [Hm Hp].
    destruct (ascii_dec (digit_char d) "-") as [E|_]; [contradiction|].
    destruct (ascii_dec (digit_char d) "+") as [E|_]; [contradiction|].
    change (digit_char d :: map digit_char ds') with (map digit_char (d :: ds')).
    rewrite digits_value_map by exact Hd. rewrite Hv. reflexivity.
Qed.

(* ------------------------------------------------------------------ *)
(** ** The results of [fetch] and the dispatch loop *)

Lemma fetch_ambiguous_kind (resource : string) (o : get_outcome) :
  ambiguous (fetch resource o) = true ->
  (exists code, exception (fetch resource o) = Some (ErrNoContentLength code resource)) \/
  (exists e, exception (fetch resource o) = Some (ErrAtoi e)).
Proof.
  unfold fetch. destruct o as [e|code value]; simpl; [discriminate|].
  destruct (code >? 399); simpl; [discriminate|].
  destruct ((length value <=? 0)%nat); simpl; [left; eexists; reflexivity|].
  destruct (Atoi value); simpl; [discriminate|]. right; eexists; reflexivity.
Qed.

(** Every result of [fetch] records the requested URL and
    [completed = true].  It carries no error only for a response with
    status at most 399 and a non-empty Content-Length that [Atoi]
    parses, and then its size is the parsed value and its status the
    response's.  A result with an error has status and size 0, and it is
    ambiguous only for a missing or an unparsable Content-Length. *)
Theorem fetch_result_fields (resource : string) (o : get_outcome) :
  let r := fetch resource o in
  url r = resource /\ completed r = true /\
  (exception r = None ->
     exists code v, o = GetResponse code v /\ code <= 399 /\ v <> [] /\
       Atoi v = inl (size r) /\ status r = code) /\
  (exception r <> None -> status r = 0 /\ size r = 0) /\
  (ambiguous r = true ->
     (exists code, exception r = Some (ErrNoContentLength code resource)) \/
     (exists e, exception r = Some (ErrAtoi e))).
Proof.
  intros r. split; [|split; [|split; [|split]]].
  - unfold r, fetch. destruct o as [e|code value]; [reflexivity|].
    destruct (code >? 399); [reflexivity|].
    destruct ((length value <=? 0)%nat); [reflexivity|]. destruct (Atoi value); reflexivity.
  - unfold r, fetch. destruct o as [e|code value]; [reflexivity|].
    destruct (code >? 399); [reflexivity|].
    destruct ((length value <=? 0)%nat); [reflexivity|]. destruct (Atoi value); reflexivity.
  - unfold r, fetch. destruct o as [e|code value]; simpl; [discriminate|].
    destruct (code >? 399) eqn:Hc; simpl; [discriminate|].
    destruct ((length value <=? 0)%nat) eqn:Hl; simpl; [discriminate|].
    destruct (Atoi value) as [n|e] eqn:Ha; simpl; [|discriminate].
    intros _. exists code, value. split; [reflexivity|].
    rewrite Z.gtb_ltb in Hc. apply Z.ltb_ge in Hc. split; [exact Hc|].
    split; [intros ->; discriminate|]. split; [exact Ha|reflexivity].
  - unfold r, fetch. destruct o as [e|code value]; simpl; [split; reflexivity|].
    destruct (code >? 399); simpl; [split; reflexivity|].
    destruct ((length value <=? 0)%nat); simpl; [split; reflexivity|].
    destruct (Atoi value); simpl; [congruence|split; reflexivity].
  - apply fetch_ambiguous_kind.
Qed.

Lemma first_occurrences_ext (s1 s2 l : list string) :
  (forall x, In x s1 <-> In x s2) -> first_occurrences s1 l = first_occurrences s2 l.
Proof.
  revert s1 s2. induction l as [|x l IH]; intros s1 s2 Hs; simpl; [reflexivity|].
  destruct (in_dec string_dec x s1) as [H1|H1], (in_dec string_dec x s2) as [H2|H2].
  - apply IH. exact Hs.
  - exfalso. apply H2, Hs, H1.
  - exfalso. apply H1, Hs, H2.
  - f_equal. apply IH. intros y. simpl. rewrite Hs. reflexivity.
Qed.

Lemma length_first_occurrences (s l : list string) :
  (length (first_occurrences s l) <= length l)%nat.
Proof.
  revert s. induction l as [|x l IH]; intros s; simpl; [lia|].
  destruct (in_dec string_dec x s); simpl; [specialize (IH s)|specialize (IH (x :: s))]; lia.
Qed.

Section DispatchOrder.
Variable URL : Type.
Variable url_Parse : string -> option URL.

Lemma dispatch_fold_order (lines : list string) (dups : gmap string bool)
    (ds : list (string * URL)) :
  (forall l, is_Some (dups !! l) <-> In l (map fst ds)) ->
  map fst (fold_left (dispatch_step URL url_Parse) lines (dups, ds)).2 =
  map fst ds ++ first_occurrences (map fst ds) (List.filter (parses URL url_Parse) lines).
Proof.
  revert dups ds. induction lines as [|a lines IH]; intros dups ds Hdom; simpl.
  - rewrite app_nil_r. reflexivity.
  - unfold parses at 1. destruct (dups !! a) eqn:Ha.
    + assert (Hin : In a (map fst ds)) by (apply Hdom; rewrite Ha; eexists; reflexivity).
      rewrite (IH dups ds Hdom).
      destruct (url_Parse a); simpl; [|reflexivity].
      destruct (in_dec string_dec a (map fst ds)); [reflexivity|contradiction].
    + assert (Hnew : ~ In a (map fst ds)).
      { intros H. apply Hdom in H. rewrite Ha in H. inversion H; discriminate. }
      destruct (url_Parse a) as [u|] eqn:Hp; simpl.
      * rewrite IH.
        -- rewrite map_app. simpl.
           destruct (in_dec string_dec a (map fst ds)); [contradiction|].
           rewrite <- app_assoc. simpl. do 2 f_equal.
           apply first_occurrences_ext. intros x. rewrite in_app_iff. simpl. tauto.
        -- intros l. rewrite map_app. simpl. rewrite in_app_iff. simpl.
           rewrite lookup_insert. case_decide as Hal.
           ++ subst. split; [tauto|]. intros _. eexists; reflexivity.
           ++ rewrite Hdom. split; [tauto|]. intros [H|[H|H]]; [exact H|congruence|contradiction].
      * apply IH. exact Hdom.
Qed.

Lemma dispatch_fold_true (lines : list string) (dups : gmap string bool)
    (ds : list (string * URL)) :
  map_Forall (fun _ v => v = true) dups ->
  map_Forall (fun _ v => v = true) (fold_left (dispatch_step URL url_Parse) lines (dups, ds)).1.
Proof.
  revert dups ds. induction lines as [|a lines IH]; intros dups ds Hd; simpl; [exact Hd|].
  destruct (dups !! a); [apply IH; exact Hd|].
  destruct (url_Parse a); apply IH; [|exact Hd].
  apply map_Forall_insert_2; [reflexivity|exact Hd].
Qed.

(** The dispatch loop launches the fetches in the order in which the
    lines that parse first appear in the stream of [iter], one per
    distinct line; with [max-lines >= 0] it launches at most [max-lines]
    of them. *)
Theorem dispatch_first_occurrences (src : list ascii) (maxLines : Z) :
  map fst (dispatched URL url_Parse src maxLines) =
    first_occurrences [] (List.filter (parses URL url_Parse) (iter src maxLines)) /\
  (0 <= maxLines -> (length (dispatched URL url_Parse src maxLines) <= Z.to_nat maxLines)%nat).
Proof.
  assert (Horder : map fst (dispatched URL url_Parse src maxLines) =
    first_occurrences [] (List.filter (parses URL url_Parse) (iter src maxLines))).
  { unfold dispatched, dispatch_loop. rewrite dispatch_fold_order; [reflexivity|].
    intros l. rewrite lookup_empty. simpl. split; [intros H; inversion H; discriminate|tauto]. }
  split; [exact Horder|]. intros Hm.
  rewrite <- (length_map fst), Horder.
  etransitivity; [apply length_first_occurrences|].
  etransitivity; [apply List.filter_length_le|].
  rewrite iter_spec, !length_map. unfold bound.
  replace (maxLines <? 0) with false by (symmetry; apply Z.ltb_ge; lia).
  apply firstn_le_length.
Qed.

(** After the dispatch loop, [duplicates] maps a line to [true] exactly
    when [iter] emitted it and it parses as a URL, and maps no line to
    [false]. *)
Theorem duplicates_after_loop (src : list ascii) (maxLines : Z) (line : string) :
  let duplicates := (dispatch_loop URL url_Parse (iter src maxLines)).1 in
  (duplicates !! line = Some true <->
     In line (iter src maxLines) /\ parses URL url_Parse line = true) /\
  duplicates !! line <> Some false.
Proof.
  intros duplicates.
  assert (Htrue : map_Forall (fun _ v => v = true) duplicates)
    by (apply dispatch_fold_true, map_Forall_empty).
  destruct (dispatch_fold_inv URL url_Parse (iter src maxLines) ∅ [])
    as (H1 & _ & H3).
  - intros l. rewrite lookup_empty. simpl. split; [intros H; inversion H; discriminate|tauto].
  - constructor.
  - split.
    + transitivity (is_Some (duplicates !! line)).
      * split; [intros ->; eexists; reflexivity|].
        intros [v Hv]. rewrite Hv. f_equal. exact (Htrue line v Hv).
      * unfold duplicates, dispatch_loop. rewrite H1, H3. simpl. tauto.
    + intros Hf. specialize (Htrue line false Hf). discriminate.
Qed.
End DispatchOrder.


(* ------------------------------------------------------------------ *)
(** ** The counters of [flockMetrics] and the arrival order *)

Lemma fold_add_failed (l : list ravenResult) (m : flockMetrics) :
  0 <= failed m -> failed m + Z.of_nat (length l) <= int_max ->
  failed (fold_left add l m) = failed m + Z.of_nat (length (failed_results l)).
Proof.
  revert m. induction l as [|r l IH]; intros m H0 H1; simpl; [lia|].
  unfold failed_results, succeeded in *. simpl.
  simpl in H1.
  destruct (exception r) eqn:Hr; simpl.
  - assert (Ha : failed (add m r) = failed m + 1).
    { unfold add. rewrite Hr. simpl. apply wrap64_small. unfold int_min, int_max in *. lia. }
    rewrite IH; rewrite Ha; lia.
  - assert (Ha : failed (add m r) = failed m) by (unfold add; rewrite Hr; reflexivity).
    rewrite IH; rewrite Ha; lia.
Qed.

Lemma fold_add_ambiguous (l : list ravenResult) (m : flockMetrics) :
  ambiguous_errors (fold_left add l m) =
  ambiguous_errors m ++ map exception (List.filter ambiguous l).
Proof.
  revert m. induction l as [|r l IH]; intros m; simpl; [rewrite app_nil_r; reflexivity|].
  rewrite IH. unfold add.
  destruct (ambiguous r), (exception r) eqn:E; simpl; rewrite <- ?app_assoc, ?E; reflexivity.
Qed.

Lemma length_filter_split {A} (f : A -> bool) (l : list A) :
  (length (List.filter f l) + length (List.filter (fun x => negb (f x)) l) = length l)%nat.
Proof. induction l as [|x l IH]; simpl; [reflexivity|]. destruct (f x); simpl; lia. Qed.

Lemma In_imap {A B} (f : nat -> A -> B) (l : list A) (y : B) :
  In y (imap f l) -> exists i x, y = f i x.
Proof.
  revert f. induction l as [|x l IH]; intros f Hy; simpl in Hy; [contradiction|].
  destruct Hy as [<-|Hy]; [exists 0%nat, x; reflexivity|].
  destruct (IH _ Hy) as (i & x' & ->). exists (S i), x'. reflexivity.
Qed.

Lemma Permutation_filter_bool {A} (f : A -> bool) (l1 l2 : list A) :
  Permutation l1 l2 -> Permutation (List.filter f l1) (List.filter f l2).
Proof.
  induction 1 as [|x l1 l2 _ IH|x y l|l1 l2 l3 _ IH1 _ IH2]; simpl.
  - constructor.
  - destruct (f x); [constructor|]; exact IH.
  - destruct (f x), (f y); try constructor; reflexivity.
  - etransitivity; eassumption.
Qed.

Lemma add_scalars_congr (m1 m2 : flockMetrics) (r : ravenResult) :
  scalars m1 = scalars m2 -> scalars (add m1 r) = scalars (add m2 r).
Proof.
  unfold scalars, add. intros H. injection H as Hf Hs Hx Hn Hc.
  destruct (exception r); simpl; rewrite Hf, Hs, Hx, Hn, Hc; reflexivity.
Qed.

Lemma if_ltb_max (a b : Z) : (if a <? b then b else a) = Z.max a b.
Proof. destruct (Z.ltb_spec a b); lia. Qed.

Lemma if_gtb_min (a b : Z) : (if a >? b then b else a) = Z.min a b.
Proof. rewrite Z.gtb_ltb. destruct (Z.ltb_spec b a); lia. Qed.

Lemma add_scalars_swap (m : flockMetrics) (x y : ravenResult) :
  scalars (add (add m x) y) = scalars (add (add m y) x).
Proof.
  unfold scalars, add.
  destruct (exception x), (exception y); simpl; try reflexivity;
    repeat rewrite ?if_ltb_max, ?if_gtb_min;
    rewrite ?wrap64_add_l, <- ?Z.add_assoc, ?(Z.add_comm (size x) (size y));
    repeat match goal with |- (_, _) = (_, _) => f_equal end; lia.
Qed.

Lemma fold_scalars_perm (l1 l2 : list ravenResult) :
  Permutation l1 l2 -> forall m1 m2, scalars m1 = scalars m2 ->
  scalars (fold_left add l1 m1) = scalars (fold_left add l2 m2).
Proof.
  induction 1 as [|x l1 l2 _ IH|x y l|l1 l2 l3 _ IH1 _ IH2]; intros m1 m2 Hm; simpl.
  - exact Hm.
  - apply IH. apply add_scalars_congr. exact Hm.
  - assert (H : forall l' n1 n2, scalars n1 = scalars n2 ->
                scalars (fold_left add l' n1) = scalars (fold_left add l' n2)).
    { induction l' as [|r l' IHl]; intros n1 n2 Hn; simpl; [exact Hn|].
      apply IHl. apply add_scalars_congr. exact Hn. }
    apply H. rewrite add_scalars_swap. apply add_scalars_congr, add_scalars_congr. exact Hm.
  - transitivity (scalars (fold_left add l2 m2)); [apply IH1; exact Hm|apply IH2; reflexivity].
Qed.

Section RunFacts.
Variable URL : Type.
Variable url_Parse : string -> option URL.
Variable URL_String : URL -> string.

(** In a run with fewer than [2^63] results, [failed] is the number of
    results with an error, [count] is [failed] plus the number of size
    samples, the ambiguous list has one entry per ambiguous result, and
    each entry is a non-nil no-content-length or [Atoi] error. *)
Theorem run_failed_ambiguous_counts (src : list ascii) (maxLines : Z)
    (net : nat -> URL -> get_outcome) (arr : list ravenResult) (m : flockMetrics)
    (Hrun : run URL url_Parse URL_String src maxLines net arr m)
    (Hbound : Z.of_nat (length arr) <= int_max) :
  failed m = Z.of_nat (length (failed_results arr)) /\
  count m = failed m + Z.of_nat (length (sizes m)) /\
  length (ambiguous_errors m) = length (List.filter ambiguous arr) /\
  Forall (fun e => (exists code res, e = Some (ErrNoContentLength code res)) \/
                   (exists ne, e = Some (ErrAtoi ne))) (ambiguous_errors m).
Proof.
  inversion Hrun as [arr' Hperm]; subst.
  assert (Hf : failed (finalize (rollup arr)) = Z.of_nat (length (failed_results arr))).
  { unfold finalize, rollup. simpl. rewrite fold_add_failed; simpl; lia. }
  split; [exact Hf|]. split.
  - rewrite rollup_count by exact Hbound. rewrite Hf, rollup_sizes.
    unfold successful_sizes, failed_results. rewrite length_map.
    pose proof (length_filter_split succeeded arr). lia.
  - unfold finalize, rollup. simpl. rewrite fold_add_ambiguous. simpl.
    rewrite length_map. split; [reflexivity|].
    apply List.Forall_forall. intros e He.
    apply in_map_iff in He. destruct He as (r & <- & Hr).
    apply filter_In in Hr. destruct Hr as [Hr Ha].
    apply (Permutation_in _ Hperm) in Hr. unfold fetch_results in Hr.
    apply In_imap in Hr. destruct Hr as (i & lu & ->).
    destruct (fetch_ambiguous_kind _ _ Ha) as [[code Hc]|[ne Hn]].
    + left. do 2 eexists. exact Hc.
    + right. eexists. exact Hn.
Qed.

(** The order in which the goroutines deliver their results does not
    change [count], [failed], [sum], [max], [min] or [average]; the size
    samples and the ambiguous errors differ only by a permutation. *)
Theorem run_arrival_order_irrelevant (src : list ascii) (maxLines : Z)
    (net : nat -> URL -> get_outcome)
    (arr1 arr2 : list ravenResult) (m1 m2 : flockMetrics)
    (H1 : run URL url_Parse URL_String src maxLines net arr1 m1)
    (H2 : run URL url_Parse URL_String src maxLines net arr2 m2) :
  count m1 = count m2 /\ failed m1 = failed m2 /\ sum m1 = sum m2 /\
  max m1 = max m2 /\ min m1 = min m2 /\ average m1 = average m2 /\
  Permutation (sizes m1) (sizes m2) /\
  Permutation (ambiguous_errors m1) (ambiguous_errors m2).
Proof.
  inversion H1 as [a1 P1]; subst. inversion H2 as [a2 P2]; subst.
  assert (P : Permutation arr1 arr2) by (rewrite P1, P2; reflexivity).
  pose proof (fold_scalars_perm arr1 arr2 P init_metrics init_metrics eq_refl) as Hs.
  unfold scalars in Hs. injection Hs as Hf Hsum Hmax Hmin Hc.
  unfold finalize, rollup. simpl. rewrite Hf, Hsum, Hmax, Hmin, Hc.
  do 6 (split; [reflexivity|]).
  rewrite !fold_add_sizes, !fold_add_ambiguous. simpl.
  unfold successful_sizes. split.
  - apply Permutation_map, Permutation_filter_bool, P.
  - apply Permutation_map, Permutation_filter_bool, P.
Qed.

Variable stats_Quartile : list Z -> (Q * Q * Q) + stats_error.
Variable stats_Percentile : list Z -> Q -> Q + stats_error.

(** When no line emitted by [iter] parses as a URL, nothing is fetched:
    [count] is 0, the average [0/0] is NaN and the summary is the
    [invalid flock metrics] message of the empty-input error of the
    statistics library. *)
Theorem run_no_parsed_line (src : list ascii) (maxLines : Z)
    (net : nat -> URL -> get_outcome) (arr : list ravenResult) (m : flockMetrics)
    (Hrun : run URL url_Parse URL_String src maxLines net arr m)
    (Hnone : List.filter (parses URL url_Parse) (iter src maxLines) = [])
    (Hempty : stats_Quartile [] = inr EmptyInputErr) :
  arr = [] /\ count m = 0 /\ average m = F64_NaN /\
  String stats_Quartile stats_Percentile m = SummaryInvalid EmptyInputErr.
Proof.
  inversion Hrun as [arr' Hperm]; subst.
  assert (Hd : dispatched URL url_Parse src maxLines = []).
  { destruct (dispatched_inv URL url_Parse src maxLines) as [_ Hmem].
    destruct (dispatched URL url_Parse src maxLines) as [|[l u] ds] eqn:E; [reflexivity|].
    exfalso. destruct (proj1 (Hmem l) (or_introl eq_refl)) as [Hi Hp].
    assert (Hf : In l (List.filter (parses URL url_Parse) (iter src maxLines)))
      by (apply filter_In; split; assumption).
    rewrite Hnone in Hf. exact Hf. }
  rewrite Hd in Hperm. simpl in Hperm. apply Permutation_sym, Permutation_nil in Hperm.
  subst arr.
  split; [reflexivity|]. split; [reflexivity|]. split; [reflexivity|].
  unfold String. simpl. rewrite Hempty. reflexivity.
Qed.
End RunFacts.

(* ------------------------------------------------------------------ *)
(** ** Progress and termination of the client pool *)

Lemma main_setup_positive stat open_ok leftover concurrency filename N :
  main_setup stat open_ok leftover concurrency = Some (filename, N) -> (1 <= N)%nat.
Proof.
  unfold main_setup. destruct leftover as [|f [|? ?]]; try discriminate.
  destruct (concurrency <=? 0) eqn:Hc; [discriminate|]. apply Z.leb_gt in Hc.
  destruct (stat f) as [[]|]; try discriminate.
  destruct (open_ok f); [|discriminate]. intros H. injection H as _ <-. lia.
Qed.

Lemma holds_token_held (ts : list (list effect)) (i : nat) (t : list effect) :
  ts !! i = Some t -> holds_token t = true -> (1 <= held_count ts)%nat.
Proof.
  revert i. induction ts as [|a ts IH]; intros i Hi Ht; [discriminate|].
  unfold held_count. simpl. destruct i as [|i]; simpl in Hi.
  - injection Hi as ->. rewrite Ht. simpl. lia.
  - specialize (IH i Hi Ht). unfold held_count in IH.
    destruct (holds_token a); simpl; lia.
Qed.

Lemma held_exists (ts : list (list effect)) :
  (1 <= held_count ts)%nat -> exists i t, ts !! i = Some t /\ holds_token t = true.
Proof.
  induction ts as [|a ts IH]; intros H; unfold held_count in H; simpl in H; [lia|].
  destruct (holds_token a) eqn:Ha.
  - exists 0%nat, a. split; [reflexivity|exact Ha].
  - destruct (IH H) as (i & t & Hi & Ht). exists (S i), t. split; [exact Hi|exact Ht].
Qed.

Lemma threads_done_or_pending (ts : list (list effect)) :
  Forall (fun t => t = []) ts \/ exists i e t, ts !! i = Some (e :: t).
Proof.
  induction ts as [|a ts IH]; [left; constructor|].
  destruct a as [|e t].
  - destruct IH as [IH|(i & e & t & Hi)]; [left; constructor; [reflexivity|exact IH]|].
    right. exists (S i), e, t. exact Hi.
  - right. exists 0%nat, e, t. reflexivity.
Qed.

Lemma held_count_done (ts : list (list effect)) :
  Forall (fun t => t = []) ts -> held_count ts = 0%nat.
Proof.
  unfold held_count. induction 1 as [|t ts Ht _ IH]; [reflexivity|]. subst t. exact IH.
Qed.

(** A goroutine that can step in a state satisfying [pool_inv] with [N >= 1]. *)
Lemma pool_inv_progress (N : nat) (s : pool_state) :
  (1 <= N)%nat -> pool_inv N s ->
  (exists i e t, threads s !! i = Some (e :: t)) -> exists s', pool_step N s s'.
Proof.
  destruct s as [p ts]. unfold pool_inv. simpl.
  intros HN [Hwf Hcnt] (i & e & t & Hi).
  pose proof (Forall_lookup_1 _ _ _ _ Hwf Hi) as Hx. unfold token_wf in Hx.
  destruct e.
  - destruct p as [|p].
    + destruct (held_exists ts) as (j & tj & Hj & Hh); [lia|].
      unfold holds_token in Hh.
      destruct tj as [|e' t']; [discriminate|].
      destruct e'.
      * simpl in Hh. destruct (token_ops t'); discriminate.
      * eexists. apply ps_other with (i := j) (e := E_Get); [reflexivity|exact Hj].
      * eexists. apply ps_other with (i := j) (e := E_Send r); [reflexivity|exact Hj].
      * eexists. apply ps_other with (i := j) (e := E_CloseBody); [reflexivity|exact Hj].
      * eexists. apply ps_release with (i := j); [lia|exact Hj].
      * eexists. apply ps_other with (i := j) (e := E_Done); [reflexivity|exact Hj].
    + eexists. apply ps_acquire with (i := i); [lia|exact Hi].
  - eexists. apply ps_other with (i := i) (e := E_Get); [reflexivity|exact Hi].
  - eexists. apply ps_other with (i := i) (e := E_Send r); [reflexivity|exact Hi].
  - eexists. apply ps_other with (i := i) (e := E_CloseBody); [reflexivity|exact Hi].
  - assert (Hh : holds_token (E_Release :: t) = true).
    { unfold holds_token. simpl in Hx |- *.
      destruct Hx as [Hx|[Hx|Hx]]; try discriminate Hx. injection Hx as Hx. rewrite Hx. reflexivity. }
    pose proof (holds_token_held ts i _ Hi Hh).
    eexists. apply ps_release with (i := i); [lia|exact Hi].
  - eexists. apply ps_other with (i := i) (e := E_Done); [reflexivity|exact Hi].
Qed.

(** Once [main] has passed its argument checks, the client pool never
    deadlocks: every state reachable from the filled pool and the
    [fetch] goroutines either has all goroutines finished with every
    client back in the pool, or lets some goroutine take a step. *)
Theorem fetch_pool_never_stuck (stat : string -> option bool) (open_ok : string -> bool)
    (leftover : list string) (concurrency : Z) (filename : string) (N : nat)
    (jobs : list (string * get_outcome)) (s : pool_state)
    (Hsetup : main_setup stat open_ok leftover concurrency = Some (filename, N))
    (Hreach : pool_reachable N (pool_init N jobs) s) :
  (Forall (fun t => t = []) (threads s) /\ pool s = N) \/ exists s', pool_step N s s'.
Proof.
  pose proof (main_setup_positive _ _ _ _ _ _ Hsetup) as HN.
  pose proof (pool_reachable_inv N _ _ Hreach (pool_init_inv N jobs)) as Hinv.
  destruct (threads_done_or_pending (threads s)) as [Hd|Hp].
  - left. split; [exact Hd|]. destruct Hinv as [_ Hc].
    rewrite (held_count_done _ Hd) in Hc. lia.
  - right. apply pool_inv_progress; assumption.
Qed.

(** The [concurrency <= 0] check of [main] exits before the pool is
    filled, and otherwise [main] puts [concurrency >= 1] clients in it;
    that check is what is needed, since with an empty pool no [fetch]
    goroutine could take its first step (receiving a client). *)
Theorem fetch_pool_zero_clients_stuck (stat : string -> option bool)
    (open_ok : string -> bool) (leftover : list string) (concurrency : Z)
    (jobs : list (string * get_outcome)) :
  (concurrency <= 0 -> main_setup stat open_ok leftover concurrency = None) /\
  (forall filename N, main_setup stat open_ok leftover concurrency = Some (filename, N) ->
     N = Z.to_nat concurrency /\ (1 <= N)%nat) /\
  (forall s', ~ pool_step 0 (pool_init 0 jobs) s').
Proof.
  split; [|split].
  - intros Hc. unfold main_setup. destruct leftover as [|f [|? ?]]; try reflexivity.
    replace (concurrency <=? 0) with true by (symmetry; apply Z.leb_le; exact Hc).
    reflexivity.
  - intros filename N Hm. split; [|exact (main_setup_positive _ _ _ _ _ _ Hm)].
    revert Hm. unfold main_setup. destruct leftover as [|f [|? ?]]; try discriminate.
    destruct (concurrency <=? 0); [discriminate|].
    destruct (stat f) as [[|]|]; try discriminate.
    destruct (open_ok f); [|discriminate]. intros Hm. injection Hm as _ <-. reflexivity.
  - intros s' Hs. unfold pool_init in Hs.
    inversion Hs as [p ts i t Hp Hi|p ts i t Hp Hi|p ts i e t He Hi]; subst.
    + lia.
    + lia.
    + rewrite list_lookup_fmap in Hi.
      destruct (jobs !! i) as [j|]; simpl in Hi; [|discriminate].
      injection Hi as He' _. subst e. discriminate.
Qed.

Lemma remaining_insert (ts : list (list effect)) (i : nat) (x y : list effect) :
  ts !! i = Some x ->
  (fold_right (fun t n => length t + n)%nat 0%nat (<[i := y]> ts) + length x =
   fold_right (fun t n => length t + n)%nat 0%nat ts + length y)%nat.
Proof.
  revert i. induction ts as [|a ts IH]; intros i H; [discriminate|].
  destruct i as [|i]; simpl in H.
  - injection H as ->. simpl. lia.
  - specialize (IH i H). simpl. lia.
Qed.

Lemma pool_step_remaining (N : nat) (s s' : pool_state) :
  pool_step N s s' -> (S (remaining s') = remaining s)%nat.
Proof.
  unfold remaining.
  destruct 1 as [p ts i t Hp Hi|p ts i t Hp Hi|p ts i e t He Hi]; simpl;
    pose proof (remaining_insert ts i _ t Hi) as H; simpl in H; lia.
Qed.

Lemma fetch_trace_length (resource : string) (o : get_outcome) :
  (length (fetch_trace resource o) <= 6)%nat.
Proof.
  unfold fetch_trace. destruct o as [e|code value]; simpl; [lia|].
  destruct (code >? 399); simpl; [lia|].
  destruct ((length value <=? 0)%nat); simpl; [lia|].
  destruct (Atoi value); simpl; lia.
Qed.

(** Every schedule of the [fetch] goroutines ends: it has at most six
    steps per goroutine. *)
Theorem fetch_pool_steps_bounded (N k : nat) (jobs : list (string * get_outcome))
    (s : pool_state) (Hsteps : nsteps (pool_step N) k (pool_init N jobs) s) :
  (k <= 6 * length jobs)%nat.
Proof.
  assert (Hk : forall k s0 s1, nsteps (pool_step N) k s0 s1 ->
                 (k + remaining s1 = remaining s0)%nat).
  { clear. induction 1 as [s0|k s0 s1 s2 Hs _ IH]; [lia|].
    pose proof (pool_step_remaining N _ _ Hs). lia. }
  specialize (Hk _ _ _ Hsteps).
  assert (Hinit : (remaining (pool_init N jobs) <= 6 * length jobs)%nat).
  { clear. unfold remaining, pool_init. simpl.
    induction jobs as [|j jobs IH]; cbn -[fetch_trace]; [lia|].
    pose proof (fetch_trace_length j.1 j.2). lia. }
  lia.
Qed.

(* ------------------------------------------------------------------ *)
(** ** Witnesses *)

Lemma read_string_round_trip_witness :
  read_string (lstr "ab" ++ [nl] ++ lstr "c") = (lstr "ab" ++ [nl], lstr "c", false) /\
  (lstr "ab" ++ [nl]) ++ lstr "c" = lstr "ab" ++ [nl] ++ lstr "c" /\
  (false = false -> exists p, lstr "ab" ++ [nl] = p ++ [nl] /\ ~ In nl p) /\
  (false = true -> lstr "c" = [] /\ ~ In nl (lstr "ab" ++ [nl])).
Proof.
  assert (H : read_string (lstr "ab" ++ [nl] ++ lstr "c") = (lstr "ab" ++ [nl], lstr "c", false))
    by (vm_compute; reflexivity).
  split; [exact H|].
  destruct (read_string_round_trip _ _ _ _ H) as (H1 & H2 & H3).
  split; [exact H1|]. split; [exact H2|exact H3].
Defined.

Lemma iter_max_prefix_witness :
  exists more, iter demo_src 3 = iter demo_src 1 ++ more.
Proof. apply (iter_max_prefix demo_src 1 3); [lia|left; lia]. Defined.

Lemma iter_app_witness :
  iter (envelope_line "http://a" ++ envelope_line "http://b") 1 =
  iter (envelope_line "http://a") 1 ++
  iter (envelope_line "http://b")
    (if 1 <? 0 then 1 else 1 - Z.of_nat (length (iter (envelope_line "http://a") 1))).
Proof.
  apply iter_app. right. exists (removelast (envelope_line "http://a")).
  vm_compute. reflexivity.
Defined.

Lemma iter_items_single_line_witness :
  In "http://a"%string (iter demo_src (-1)) /\ ~ In nl (lstr "http://a").
Proof.
  assert (H : In "http://a"%string (iter demo_src (-1))) by (vm_compute; left; reflexivity).
  split; [exact H|exact (iter_items_single_line demo_src (-1) _ H)].
Defined.

Lemma run_failed_ambiguous_counts_witness :
  let arr := fetch_results string (fun u => u) ambiguous_net
               (dispatched string demo_parse demo_src (-1)) in
  let m := finalize (rollup arr) in
  Z.of_nat (length arr) <= int_max /\
  failed m = Z.of_nat (length (failed_results arr)) /\
  count m = failed m + Z.of_nat (length (sizes m)) /\
  length (ambiguous_errors m) = length (List.filter ambiguous arr) /\
  Forall (fun e => (exists code res, e = Some (ErrNoContentLength code res)) \/
                   (exists ne, e = Some (ErrAtoi ne))) (ambiguous_errors m).
Proof.
  intros arr m.
  assert (Hb : Z.of_nat (length arr) <= int_max) by (vm_compute; discriminate).
  split; [exact Hb|].
  exact (run_failed_ambiguous_counts string demo_parse (fun u => u) demo_src (-1)
           ambiguous_net arr m (run_in_order demo_parse (fun u => u) demo_src (-1) ambiguous_net) Hb).
Defined.

Lemma run_arrival_order_irrelevant_witness :
  let m1 := finalize (rollup demo_arr) in
  let m2 := finalize (rollup (rev demo_arr)) in
  run string demo_parse (fun u => u) demo_src (-1) demo_net (rev demo_arr) m2 /\
  count m1 = count m2 /\ failed m1 = failed m2 /\ sum m1 = sum m2 /\
  max m1 = max m2 /\ min m1 = min m2 /\ average m1 = average m2 /\
  Permutation (sizes m1) (sizes m2) /\
  Permutation (ambiguous_errors m1) (ambiguous_errors m2).
Proof.
  intros m1 m2.
  assert (H2 : run string demo_parse (fun u => u) demo_src (-1) demo_net (rev demo_arr) m2).
  { constructor. apply Permutation_sym, Permutation_rev. }
  split; [exact H2|].
  exact (run_arrival_order_irrelevant string demo_parse (fun u => u) demo_src (-1) demo_net
           demo_arr (rev demo_arr) m1 m2
           (run_in_order demo_parse (fun u => u) demo_src (-1) demo_net) H2).
Defined.

Lemma run_no_parsed_line_witness :
  let arr := fetch_results string (fun u => u) demo_net
               (dispatched string demo_parse junk_src (-1)) in
  let m := finalize (rollup arr) in
  List.filter (parses string demo_parse) (iter junk_src (-1)) = [] /\
  demo_quartiles [] = inr EmptyInputErr /\
  arr = [] /\ count m = 0 /\ average m = F64_NaN /\
  String demo_quartiles demo_percentile m = SummaryInvalid EmptyInputErr.
Proof.
  intros arr m.
  assert (Hn : List.filter (parses string demo_parse) (iter junk_src (-1)) = [])
    by (vm_compute; reflexivity).
  split; [exact Hn|]. split; [reflexivity|].
  exact (run_no_parsed_line string demo_parse (fun u => u) demo_quartiles demo_percentile
           junk_src (-1) demo_net arr m
           (run_in_order demo_parse (fun u => u) junk_src (-1) demo_net) Hn eq_refl).
Defined.

Lemma fetch_pool_never_stuck_witness :
  let s := mkPoolState (1 - 1)
             (<[0%nat := tail (fetch_trace "http://a" (GetError "connection refused"))]>
                (threads (pool_init 1 demo_jobs))) in
  main_setup demo_stat demo_open ["urls.txt"%string] 1 = Some ("urls.txt"%string, 1%nat) /\
  pool_reachable 1 (pool_init 1 demo_jobs) s /\
  ((Forall (fun t => t = []) (threads s) /\ pool s = 1%nat) \/ exists s', pool_step 1 s s').
Proof.
  intros s.
  assert (Hm : main_setup demo_stat demo_open ["urls.txt"%string] 1 = Some ("urls.txt"%string, 1%nat))
    by reflexivity.
  assert (Hr : pool_reachable 1 (pool_init 1 demo_jobs) s).
  { apply rtc_once. apply ps_acquire; [lia|reflexivity]. }
  split; [exact Hm|]. split; [exact Hr|].
  exact (fetch_pool_never_stuck demo_stat demo_open _ _ _ _ demo_jobs s Hm Hr).
Defined.

Lemma fetch_pool_zero_clients_stuck_witness :
  main_setup demo_stat demo_open ["urls.txt"%string] 0 = None /\
  main_setup demo_stat demo_open ["urls.txt"%string] 2 = Some ("urls.txt"%string, 2%nat) /\
  (2%nat = Z.to_nat 2 /\ (1 <= 2)%nat) /\
  ~ pool_step 0 (pool_init 0 demo_jobs) (pool_init 0 demo_jobs).
Proof.
  destruct (fetch_pool_zero_clients_stuck demo_stat demo_open ["urls.txt"%string] 0 demo_jobs)
    as (H0 & _ & Hstuck).
  destruct (fetch_pool_zero_clients_stuck demo_stat demo_open ["urls.txt"%string] 2 demo_jobs)
    as (_ & H2 & _).
  assert (Hm : main_setup demo_stat demo_open ["urls.txt"%string] 2 = Some ("urls.txt"%string, 2%nat))
    by reflexivity.
  split; [apply H0; lia|]. split; [exact Hm|]. split; [exact (H2 _ _ Hm)|].
  apply Hstuck.
Defined.

Lemma fetch_pool_steps_bounded_witness :
  let s := mkPoolState (1 - 1)
             (<[0%nat := tail (fetch_trace "http://a" (GetError "connection refused"))]>
                (threads (pool_init 1 demo_jobs))) in
  nsteps (pool_step 1) 1 (pool_init 1 demo_jobs) s /\ (1 <= 6 * length demo_jobs)%nat.
Proof.
  intros s.
  assert (Hs : nsteps (pool_step 1) 1 (pool_init 1 demo_jobs) s).
  { apply nsteps_once. apply ps_acquire; [lia|reflexivity]. }
  split; [exact Hs|exact (fetch_pool_steps_bounded 1 1 demo_jobs s Hs)].
Defined.
